(** * Paillier voting: a shallow embedding of the Python sources

    The development follows [Paillier_Vote.py] (modular utilities, key
    generation, encryption, decryption, homomorphic aggregation) and
    [Realistic_Election.py] (one-hot vote vectors, vector aggregation and
    winner selection).

    Python integers are unbounded, so they are modelled by [Z]; Python's
    floor division and modulo agree with [Z.div] and [Z.modulo] whenever
    the divisor is not zero, and raise [ZeroDivisionError] otherwise.
    Exceptions are modelled by an error monad. *)

From Stdlib Require Import ZArith List Bool String Lia Permutation.
From Stdlib Require Import Znumtheory Zpow_facts Zcong Zdivisibility.
From Stdlib Require Import Zmod.
Import ListNotations.

#[local] Open Scope Z_scope.

(* ================================================================== *)
(** ** Python run-time model *)
(* ================================================================== *)

(** The exceptions the modelled code can raise.  A [ValueError] carries
    the text that identifies the raising site. *)
Inductive exn : Type :=
| ValueError (msg : string)
| ZeroDivisionError
| IndexError.

(** Outcome of running a piece of Python code.  [Unfinished] is only
    produced by loops that consume random draws: it says that the draws
    supplied to the model were used up while the loop was still running. *)
Inductive outcome (A : Type) : Type :=
| Ok (a : A)
| Raise (e : exn)
| Unfinished.

Arguments Ok {A} a.
Arguments Raise {A} e.
Arguments Unfinished {A}.

Definition bind {A B : Type} (c : outcome A) (k : A -> outcome B) : outcome B :=
  match c with
  | Ok a => k a
  | Raise e => Raise e
  | Unfinished => Unfinished
  end.

Notation "x <- c ;; k" := (bind c (fun x => k))
  (at level 61, c at next level, right associativity).

(** Built-in and library functions used by the sources. *)
Module Py.

(** [a // b] *)
Definition floordiv (a b : Z) : outcome Z :=
  if b =? 0 then Raise ZeroDivisionError else Ok (a / b).

(** [a % b] *)
Definition modulo (a b : Z) : outcome Z :=
  if b =? 0 then Raise ZeroDivisionError else Ok (a mod b).

(** [math.gcd(a, b)]: the non-negative greatest common divisor. *)
Definition gcd (a b : Z) : Z := Z.gcd a b.

(** Three-argument [pow(b, e, m)].  A zero modulus is rejected, a modulus
    of absolute value one gives 0, a negative exponent first replaces the
    base by its inverse modulo [|m|] (rejected when there is none), and
    the result has the sign of the modulus. *)
Definition pow (b e m : Z) : outcome Z :=
  if m =? 0 then Raise (ValueError "pow() 3rd argument cannot be 0")
  else if Z.abs m =? 1 then Ok 0
  else if e <? 0 then
    if Z.gcd b (Z.abs m) =? 1
    then Ok (Zpow_mod (Z.invmod b (Z.abs m)) (- e) m)
    else Raise (ValueError "base is not invertible for the given modulus")
  else Ok (Zpow_mod b e m).

(** [random.choice(seq)]: [seq[randbelow(len(seq))]]; the argument [d] is
    the raw draw, reduced to an index below the length.  An empty
    sequence raises [IndexError]. *)
Definition choice (seq : list Z) (d : nat) : outcome Z :=
  match nth_error seq (d mod List.length seq)%nat with
  | Some x => Ok x
  | None => Raise IndexError
  end.

(** [randrange(lo, hi)] of a random source; [d] is the raw draw. *)
Definition randrange (lo hi : Z) (d : Z) : outcome Z :=
  if hi <=? lo then Raise (ValueError "empty range for randrange()")
  else Ok (lo + d mod (hi - lo)).

(** [[x] * k]: the list of [k] copies of [x], empty when [k <= 0]. *)
Definition list_mul (x : Z) (k : Z) : list Z := repeat x (Z.to_nat k).

Fixpoint update (v : list Z) (i : nat) (x : Z) : list Z :=
  match v, i with
  | [], _ => []
  | _ :: t, O => x :: t
  | h :: t, S j => h :: update t j x
  end.

(** [v[i] = x]: a negative index counts from the end; an index outside
    [-len(v) .. len(v)-1] raises [IndexError]. *)
Definition setitem (v : list Z) (i : Z) (x : Z) : outcome (list Z) :=
  let len := Z.of_nat (List.length v) in
  let j := if i <? 0 then i + len else i in
  if (j <? 0) || (len <=? j) then Raise IndexError
  else Ok (update v (Z.to_nat j) x).

(** [max(l)] of a list; the empty list raises [ValueError]. *)
Definition max (l : list Z) : outcome Z :=
  match l with
  | [] => Raise (ValueError "max() arg is an empty sequence")
  | x :: t => Ok (fold_left (fun best y => if best <? y then y else best) t x)
  end.

(** [l.index(x)]: position of the first element equal to [x]. *)
Fixpoint index (l : list Z) (x : Z) : outcome nat :=
  match l with
  | [] => Raise (ValueError "x is not in list")
  | y :: t => if y =? x then Ok O
              else i <- index t x ;; Ok (S i)
  end.

(** A list comprehension [[f(x) for x in l]]: elements are computed from
    left to right and the first exception ends the evaluation. *)
Fixpoint comprehension {A B : Type} (f : A -> outcome B) (l : list A)
  : outcome (list B) :=
  match l with
  | [] => Ok []
  | x :: t => y <- f x ;; ys <- comprehension f t ;; Ok (y :: ys)
  end.

End Py.

Infix "//" := Py.floordiv (at level 40, left associativity).
Infix "%%" := Py.modulo (at level 40, left associativity).

(* ================================================================== *)
(** ** Paillier_Vote.py *)
(* ================================================================== *)

(** [lcm(a, b) = a // math.gcd(a, b) * b] *)
Definition lcm (a b : Z) : outcome Z :=
  t <- a // Py.gcd a b ;; Ok (t * b).

(** [modInv(a, m)]: raises [ValueError] unless [gcd(a, m) = 1].  The
    numbers the source formats into the message are left out. *)
Definition modInv (a m : Z) : outcome Z :=
  let g := Py.gcd a m in
  if negb (g =? 1) then Raise (ValueError "No inverse")
  else Py.pow a (-1) m.

(** [getRandom(n)]: rejection sampling in [1, n-1].  [draws] lists the raw
    draws of the system random source, one per iteration of the loop. *)
Fixpoint getRandom (n : Z) (draws : list Z) : outcome Z :=
  match draws with
  | [] => Unfinished
  | d :: rest =>
      r <- Py.randrange 1 n d ;;
      if Py.gcd r n =? 1 then Ok r else getRandom n rest
  end.

(** Public key: [n], [g] and the derived [n_sq]. *)
Record PaillierPublicKey : Type := mkPaillierPublicKey
  { n : Z; g : Z; n_sq : Z }.

(** [PaillierPublicKey.__init__(n, g)] *)
Definition newPaillierPublicKey (n g : Z) : PaillierPublicKey :=
  {| n := n; g := g; n_sq := n * n |}.

(** Private key: [lambda_] and [mu]. *)
Record PaillierPrivateKey : Type := newPaillierPrivateKey
  { lambda_ : Z; mu : Z }.

Definition small_primes : list Z :=
  [101; 103; 107; 109; 113; 127; 131; 137; 139; 149].

(** [generatePaillierKey(bits)].  [d1] and [d2] are the raw draws behind
    the two calls of [random.choice]. *)
Definition generatePaillierKey (bits : Z) (d1 d2 : nat)
  : outcome (PaillierPublicKey * PaillierPrivateKey) :=
  p <- Py.choice small_primes d1 ;;
  q <- Py.choice (filter (fun x => negb (x =? p)) small_primes) d2 ;;
  let n := p * q in
  lambda_ <- lcm (p - 1) (q - 1) ;;
  let g := n + 1 in
  let n_sq := n * n in
  let L (u : Z) : outcome Z := (u - 1) // n in
  x <- Py.pow g lambda_ n_sq ;;
  l_val <- L x ;;
  mu <- modInv l_val n ;;
  let publicKey := newPaillierPublicKey n g in
  let privateKey := newPaillierPrivateKey lambda_ mu in
  Ok (publicKey, privateKey).

(** [paillier_encrypt(pub, m, r=None)]; [draws] feeds [getRandom] when no
    [r] is given. *)
Definition paillier_encrypt (pub : PaillierPublicKey) (m : Z)
    (r : option Z) (draws : list Z) : outcome Z :=
  let '(n, g, n_sq) := (n pub, g pub, n_sq pub) in
  if negb ((0 <=? m) && (m <? n))
  then Raise (ValueError "Plaintext is out of range here. It needs to be: 0 <= m < n")
  else
    r <- match r with
         | None => getRandom n draws
         | Some r => Ok r
         end ;;
    a <- Py.pow g m n_sq ;;
    b <- Py.pow r n n_sq ;;
    (a * b) %% n_sq.

(** [paillier_decrypt(pub, priv, c)] *)
Definition paillier_decrypt (pub : PaillierPublicKey)
    (priv : PaillierPrivateKey) (c : Z) : outcome Z :=
  let '(n, n_sq) := (n pub, n_sq pub) in
  let '(lambda_, mu) := (lambda_ priv, mu priv) in
  let L (u : Z) : outcome Z := (u - 1) // n in
  x <- Py.pow c lambda_ n_sq ;;
  l_val <- L x ;;
  (l_val * mu) %% n.

(** [homomorphic_add(pub, c1, c2)] *)
Definition homomorphic_add (pub : PaillierPublicKey) (c1 c2 : Z) : outcome Z :=
  (c1 * c2) %% n_sq pub.

(** The [for] loop of [homomorphic_add_many], started from [result]. *)
Fixpoint add_many_loop (pub : PaillierPublicKey) (result : Z)
    (ciphertexts : list Z) : outcome Z :=
  match ciphertexts with
  | [] => Ok result
  | c :: rest =>
      result <- (result * c) %% n_sq pub ;;
      add_many_loop pub result rest
  end.

(** [homomorphic_add_many(pub, ciphertexts)] *)
Definition homomorphic_add_many (pub : PaillierPublicKey)
    (ciphertexts : list Z) : outcome Z :=
  match ciphertexts with
  | [] =>
      a <- Py.pow (g pub) 0 (n_sq pub) ;;
      b <- Py.pow 1 (n pub) (n_sq pub) ;;
      (a * b) %% n_sq pub
  | _ :: _ => add_many_loop pub 1 ciphertexts
  end.

(* ================================================================== *)
(** ** Realistic_Election.py *)
(* ================================================================== *)

(** [encode_vote(index, num)]: [v = [0] * num; v[index] = 1]. *)
Definition encode_vote (index num : Z) : outcome (list Z) :=
  let v := Py.list_mul 0 num in
  Py.setitem v index 1.

(** [add_vectors(enc_vec_a, enc_vec_b, pub)]: a comprehension over
    [zip(enc_vec_a, enc_vec_b)]; [zip] stops at the shorter argument,
    which is what [combine] does. *)
Definition add_vectors (enc_vec_a enc_vec_b : list Z)
    (pub : PaillierPublicKey) : outcome (list Z) :=
  Py.comprehension (fun '(a, b) => homomorphic_add pub a b)
                   (combine enc_vec_a enc_vec_b).

(** [decrypt_vector(enc_vec, pub, priv)] *)
Definition decrypt_vector (enc_vec : list Z) (pub : PaillierPublicKey)
    (priv : PaillierPrivateKey) : outcome (list Z) :=
  Py.comprehension (fun c => paillier_decrypt pub priv c) enc_vec.

(** Winner selection of [run_realistic_election] and of
    [multi_candidate_demo]: [tally.index(max(tally))]. *)
Definition winner_index (tally : list Z) : outcome nat :=
  best <- Py.max tally ;;
  Py.index tally best.


(* ================================================================== *)
(** ** Auxiliary definitions for the proofs *)
(* ================================================================== *)

(** The values [generatePaillierKey] computes once the primes [p] and
    [q] are drawn: modulus, private exponent and the two keys. *)
Definition key_n (p q : Z) : Z := p * q.

Definition key_lambda (p q : Z) : Z :=
  (p - 1) / Z.gcd (p - 1) (q - 1) * (q - 1).

Definition key_pub (p q : Z) : PaillierPublicKey :=
  newPaillierPublicKey (key_n p q) (key_n p q + 1).

Definition key_priv (p q : Z) : PaillierPrivateKey :=
  newPaillierPrivateKey (key_lambda p q)
                        (Z.invmod (key_lambda p q) (key_n p q)).

(** Primality by trial division: no [d] in [2 .. p-1] divides [p]. *)
Definition trial_division (p : Z) : bool :=
  forallb (fun d => negb (p mod d =? 0))
          (map Z.of_nat (seq 2 (Z.to_nat p - 2))).

(** The text of the [ValueError] raised by the range check of
    [paillier_encrypt]. *)
Definition out_of_range : string :=
  "Plaintext is out of range here. It needs to be: 0 <= m < n".

(** The L-value [L(g^lambda mod n^2)] that [generatePaillierKey] hands
    to [modInv] once [p] and [q] are drawn. *)
Definition keygen_l_val (p q : Z) : Z :=
  ((p * q + 1) ^ ((p - 1) / Z.gcd (p - 1) (q - 1) * (q - 1))
     mod (p * q * (p * q)) - 1) / (p * q).

(** A sample key pair, the one generated from the draws [0] and [0]
    ([p = 101], [q = 103]). *)
Definition sample_pub : PaillierPublicKey :=
  {| n := 10403; g := 10404; n_sq := 108222409 |}.

Definition sample_priv : PaillierPrivateKey :=
  {| lambda_ := 5100; mu := 3331 |}.

(** Product of a list of integers. *)
Definition product (l : list Z) : Z := fold_right Z.mul 1 l.

(** [one_hot v k i]: [v] has length [k], a 1 at position [i] and 0
    everywhere else. *)
Definition one_hot (v : list Z) (k i : Z) : Prop :=
  Z.of_nat (List.length v) = k /\
  forall j : nat, (j < List.length v)%nat ->
    nth j v 0 = if Z.of_nat j =? i then 1 else 0.

(** [cong m a b]: [a] and [b] differ by a multiple of [m]. *)
Definition cong (m a b : Z) : Prop := (m | a - b).

(* ================================================================== *)
(** ** Further functions of the sources *)
(* ================================================================== *)

(** [encrypt_vector(vec, pub)] of [Realistic_Election.py]:
    [[paillier_encrypt(pub, m) for m in vec]].  Every call draws its own
    randomizer; [draws] gives, call by call, the raw draws that the
    [getRandom] loop of that call consumes. *)
Fixpoint encrypt_vector (vec : list Z) (pub : PaillierPublicKey)
    (draws : list (list Z)) : outcome (list Z) :=
  match vec with
  | [] => Ok []
  | m :: rest =>
      c <- paillier_encrypt pub m None (hd [] draws) ;;
      cs <- encrypt_vector rest pub (tl draws) ;;
      Ok (c :: cs)
  end.

(** The encryption loop of [run_simple_election]:
    [for i, v in enumerate(votes): c = paillier_encrypt(pub, v);
    ciphertexts.append(c)]. *)
Fixpoint encrypt_votes_loop (pub : PaillierPublicKey) (ciphertexts : list Z)
    (votes : list Z) (draws : list (list Z)) : outcome (list Z) :=
  match votes with
  | [] => Ok ciphertexts
  | v :: rest =>
      c <- paillier_encrypt pub v None (hd [] draws) ;;
      encrypt_votes_loop pub (ciphertexts ++ [c]) rest (tl draws)
  end.

(** [run_simple_election(votes)] of [Simple_Election.py]: key generation,
    encryption of every vote, homomorphic tally, decryption.  The [print]
    calls only write to the console and are left out; the value is the
    returned [tally]. *)
Definition run_simple_election (votes : list Z) (d1 d2 : nat)
    (draws : list (list Z)) : outcome Z :=
  keys <- generatePaillierKey 512 d1 d2 ;;
  let '(pub, priv) := keys in
  ciphertexts <- encrypt_votes_loop pub [] votes draws ;;
  aggregate <- homomorphic_add_many pub ciphertexts ;;
  tally <- paillier_decrypt pub priv aggregate ;;
  Ok tally.

(** The accumulation loop shared by [run_realistic_election] and
    [multi_candidate_demo]: every choice is one-hot encoded and
    encrypted, and added to [encrypted_tally], which starts as [None].
    [draws] gives the draws of every ballot, component by component. *)
Fixpoint tally_loop (encrypted_tally : option (list Z)) (votes : list Z)
    (num_candidates : Z) (pub : PaillierPublicKey)
    (draws : list (list (list Z))) : outcome (option (list Z)) :=
  match votes with
  | [] => Ok encrypted_tally
  | choice :: rest =>
      encoded <- encode_vote choice num_candidates ;;
      encrypted <- encrypt_vector encoded pub (hd [] draws) ;;
      encrypted_tally <- match encrypted_tally with
                         | None => Ok encrypted
                         | Some t => add_vectors t encrypted pub
                         end ;;
      tally_loop (Some encrypted_tally) rest num_candidates pub (tl draws)
  end.

(* ================================================================== *)
(** ** Auxiliary definitions for the further properties *)
(* ================================================================== *)

(** [accepts nn d]: the raw draw [d] makes [getRandom(nn)] return. *)
Definition accepts (nn d : Z) : bool :=
  Z.gcd (1 + d mod (nn - 1)) nn =? 1.

(** The draws supplied to one call of [getRandom] contain one that is
    accepted, so the loop ends. *)
Definition enough_draws (nn : Z) (ds : list Z) : bool :=
  existsb (accepts nn) ds.

(** Enough draws for the encryption of a vector of [k] entries. *)
Definition enough_for_vector (nn : Z) (k : nat) (draws : list (list Z))
  : bool :=
  (k <=? List.length draws)%nat && forallb (enough_draws nn) draws.

(** Enough draws for [voters] ballots of [k] entries each. *)
Definition enough_for_election (nn : Z) (k voters : nat)
    (draws : list (list (list Z))) : bool :=
  (voters <=? List.length draws)%nat && forallb (enough_for_vector nn k) draws.

(** [encrypts pub k c]: [c] is, modulo [n_sq], of the form
    [g^k * s^n] for some [s] coprime to [n]. *)
Definition encrypts (pub : PaillierPublicKey) (k c : Z) : Prop :=
  exists s, Z.gcd s (n pub) = 1 /\
            cong (n_sq pub) c (g pub ^ k * s ^ n pub).

(** Sum of a list of integers. *)
Definition total (l : list Z) : Z := fold_right Z.add 0 l.

(** Number of ballots for every candidate [0 .. k-1]. *)
Definition counts (votes : list Z) (k : Z) : list Z :=
  map (fun j => Z.of_nat (count_occ Z.eq_dec votes (Z.of_nat j)))
      (seq 0 (Z.to_nat k)).

(* ================================================================== *)
(** ** The error monad and the built-ins *)
(* ================================================================== *)

Lemma floordiv_nonzero (a b : Z) : b <> 0 -> a // b = Ok (a / b).
Proof.
  intros Hb. unfold Py.floordiv.
  destruct (Z.eqb_spec b 0); [contradiction | reflexivity].
Qed.

Lemma modulo_nonzero (a b : Z) : b <> 0 -> a %% b = Ok (a mod b).
Proof.
  intros Hb. unfold Py.modulo.
  destruct (Z.eqb_spec b 0); [contradiction | reflexivity].
Qed.

(** With a modulus above one and a non-negative exponent, [pow] is the
    mathematical power reduced modulo [m]. *)
Lemma pow_nonneg (b e m : Z) :
  1 < m -> 0 <= e -> Py.pow b e m = Ok (b ^ e mod m).
Proof.
  intros Hm He. unfold Py.pow.
  destruct (Z.eqb_spec m 0); [lia |].
  destruct (Z.eqb_spec (Z.abs m) 1); [lia |].
  destruct (Z.ltb_spec e 0); [lia |].
  now rewrite Zpow_mod_correct.
Qed.

(** [pow(a, -1, m)] is the inverse of [a] in [0, m) when there is one. *)
Lemma pow_inverse (a m : Z) :
  1 < m -> Z.gcd a m = 1 -> Py.pow a (-1) m = Ok (Z.invmod a m).
Proof.
  intros Hm Ha. unfold Py.pow.
  destruct (Z.eqb_spec m 0); [lia |].
  destruct (Z.eqb_spec (Z.abs m) 1); [lia |].
  replace (Z.abs m) with m by lia.
  rewrite Ha.
  change (-1 <? 0) with true. change (1 =? 1) with true.
  change (- -1) with 1. cbv iota.
  rewrite Zpow_mod_correct by lia.
  now rewrite Z.pow_1_r, Z.mod_invmod.
Qed.

Lemma modInv_coprime (a m : Z) :
  1 < m -> Z.gcd a m = 1 -> modInv a m = Ok (Z.invmod a m).
Proof.
  intros Hm Ha. unfold modInv, Py.gcd. rewrite Ha. simpl.
  now apply pow_inverse.
Qed.

Lemma choice_In (seq : list Z) (d : nat) :
  seq <> [] -> exists x, Py.choice seq d = Ok x /\ In x seq.
Proof.
  intros Hne. unfold Py.choice.
  destruct (nth_error seq (d mod List.length seq)%nat) as [x |] eqn:E.
  - exists x. split; [reflexivity |]. eapply nth_error_In; eassumption.
  - exfalso. apply nth_error_None in E.
    assert (List.length seq <> 0)%nat by (destruct seq; simpl; congruence).
    pose proof (Nat.mod_upper_bound d (List.length seq)). lia.
Qed.

(* ================================================================== *)
(** ** Congruences *)
(* ================================================================== *)

Lemma cong_refl (m a : Z) : cong m a a.
Proof. unfold cong. rewrite Z.sub_diag. apply Z.divide_0_r. Qed.

Lemma cong_sym (m a b : Z) : cong m a b -> cong m b a.
Proof.
  unfold cong. intros [k Hk]. exists (- k). lia.
Qed.

Lemma cong_trans (m a b c : Z) : cong m a b -> cong m b c -> cong m a c.
Proof.
  unfold cong. intros [k Hk] [l Hl]. exists (k + l). lia.
Qed.

Lemma cong_mul (m a b c d : Z) :
  cong m a b -> cong m c d -> cong m (a * c) (b * d).
Proof.
  unfold cong. intros [k Hk] [l Hl].
  exists (k * c + b * l).
  replace (a * c - b * d) with ((a - b) * c + b * (c - d)) by ring.
  rewrite Hk, Hl. ring.
Qed.

Lemma cong_pow (m a b e : Z) : cong m a b -> cong m (a ^ e) (b ^ e).
Proof.
  intros H. destruct (Z.lt_ge_cases e 0) as [Hneg | Hpos].
  - rewrite !Z.pow_neg_r by assumption. apply cong_refl.
  - pattern e. apply natlike_ind; [apply cong_refl | | assumption].
    intros x Hx IH. rewrite !Z.pow_succ_r by assumption.
    now apply cong_mul.
Qed.

Lemma cong_mod_l (m a : Z) : cong m (a mod m) a.
Proof.
  unfold cong. exists (- (a / m)).
  destruct (Z.eq_dec m 0) as [-> | Hm].
  - rewrite Z.mod_0_r. lia.
  - pose proof (Z.div_mod a m Hm). lia.
Qed.

Lemma cong_mod_eq (m a b : Z) : cong m a b -> a mod m = b mod m.
Proof.
  unfold cong. intros [k Hk].
  replace a with (b + k * m) by lia.
  apply Z_mod_plus_full.
Qed.

Lemma cong_divide_mul (m1 m2 a b : Z) :
  Z.gcd m1 m2 = 1 -> cong m1 a b -> cong m2 a b -> cong (m1 * m2) a b.
Proof.
  unfold cong. intros Hco [k Hk] H2.
  rewrite Hk, Z.mul_comm in H2.
  apply Z.gauss in H2; [| rewrite Z.gcd_comm; exact Hco].
  destruct H2 as [l Hl]. exists l. rewrite Hk, Hl. ring.
Qed.

(** First-order binomial expansion modulo [N * N]. *)
Lemma pow_one_plus_multiple (N a k : Z) :
  0 <= k -> cong (N * N) ((1 + a * N) ^ k) (1 + k * a * N).
Proof.
  intros Hk. pattern k. apply natlike_ind; [| | assumption].
  - simpl. replace (1 + 0 * a * N) with 1 by ring. apply cong_refl.
  - intros x Hx [c Hc]. rewrite Z.pow_succ_r by assumption.
    exists ((1 + a * N) * c + x * a * a).
    replace ((1 + a * N) ^ x) with (c * (N * N) + (1 + x * a * N)) by lia.
    ring.
Qed.

(* ================================================================== *)
(** ** Algebra of a key built from two distinct primes *)
(* ================================================================== *)

Lemma coprime_factor_l (s a b : Z) : Z.gcd s (a * b) = 1 -> Z.gcd s a = 1.
Proof.
  intros H. apply Z.divide_1_r_nonneg; [apply Z.gcd_nonneg |].
  rewrite <- H. apply Z.gcd_greatest; [apply Z.gcd_divide_l |].
  apply Z.divide_mul_l, Z.gcd_divide_r.
Qed.

Lemma coprime_factor_r (s a b : Z) : Z.gcd s (a * b) = 1 -> Z.gcd s b = 1.
Proof. rewrite Z.mul_comm. apply coprime_factor_l. Qed.

Lemma distinct_primes_coprime (p q : Z) :
  Z.prime p -> Z.prime q -> p <> q -> Z.gcd p q = 1.
Proof.
  intros Hp Hq Hne. apply Z.coprime_prime_l; [assumption |].
  intros Hd. pose proof (Z.prime_ge_2 _ Hp). pose proof (Z.prime_ge_2 _ Hq).
  apply (Z.divide_prime_r _ _ Hq) in Hd. lia.
Qed.

(** Fermat's little theorem, for an exponent that is a multiple of
    [p - 1]. *)
Lemma fermat_multiple (p s t : Z) :
  Z.prime p -> Z.gcd s p = 1 -> 0 <= t -> cong p (s ^ ((p - 1) * t)) 1.
Proof.
  intros Hp Hs Ht. pose proof (Z.prime_ge_2 _ Hp) as Hp2.
  assert (Hnz : s mod p <> 0).
  { intros Hz. apply Z.mod_divide in Hz; [| lia].
    assert (Hd : (p | 1)).
    { rewrite <- Hs. apply Z.gcd_greatest; [assumption | apply Z.divide_refl]. }
    apply Z.divide_1_r_nonneg in Hd; lia. }
  pose proof (Z.fermat_nz p s Hp Hnz) as HF.
  rewrite Z.pow_mul_r by lia.
  apply cong_trans with (b := (s ^ (p - 1) mod p) ^ t).
  - apply cong_pow, cong_sym, cong_mod_l.
  - rewrite HF, Z.pow_1_l by assumption. apply cong_refl.
Qed.

Section KeyAlgebra.

Variables p q : Z.
Hypothesis prime_p : Z.prime p.
Hypothesis prime_q : Z.prime q.
Hypothesis distinct : p <> q.

#[local] Abbreviation N := (key_n p q).
#[local] Abbreviation lam := (key_lambda p q).

Hypothesis lam_coprime : Z.gcd lam N = 1.

Lemma p_ge_2 : 2 <= p.
Proof. exact (Z.prime_ge_2 _ prime_p). Qed.

Lemma q_ge_2 : 2 <= q.
Proof. exact (Z.prime_ge_2 _ prime_q). Qed.

Lemma N_gt_1 : 1 < N.
Proof. pose proof p_ge_2. pose proof q_ge_2. unfold key_n. nia. Qed.

Lemma gcd_pred_pos : 0 < Z.gcd (p - 1) (q - 1).
Proof.
  pose proof p_ge_2. pose proof (Z.gcd_nonneg (p - 1) (q - 1)).
  destruct (Z.eq_dec (Z.gcd (p - 1) (q - 1)) 0) as [E |]; [| lia].
  apply Z.gcd_eq_0_l in E. lia.
Qed.

Lemma lam_multiple_p : lam = (p - 1) * ((q - 1) / Z.gcd (p - 1) (q - 1)).
Proof. unfold key_lambda. apply Z.gcd_div_swap. Qed.

Lemma lam_multiple_q : lam = (q - 1) * ((p - 1) / Z.gcd (p - 1) (q - 1)).
Proof. unfold key_lambda. ring. Qed.

Lemma lam_nonneg : 0 <= lam.
Proof.
  pose proof p_ge_2. pose proof q_ge_2. pose proof gcd_pred_pos.
  unfold key_lambda. apply Z.mul_nonneg_nonneg; [| lia].
  apply Z.div_pos; lia.
Qed.

(** Carmichael's theorem for [N = p * q]. *)
Lemma carmichael (s : Z) : Z.gcd s N = 1 -> cong N (s ^ lam) 1.
Proof.
  intros Hs. pose proof p_ge_2. pose proof q_ge_2. pose proof gcd_pred_pos.
  unfold key_n. apply cong_divide_mul.
  - now apply distinct_primes_coprime.
  - rewrite lam_multiple_p. apply fermat_multiple; trivial.
    + now apply coprime_factor_l with (b := q).
    + apply Z.div_pos; lia.
  - rewrite lam_multiple_q. apply fermat_multiple; trivial.
    + now apply coprime_factor_r with (a := p).
    + apply Z.div_pos; lia.
Qed.

(** The [N]-th power of a unit has order dividing [lam] modulo [N * N]. *)
Lemma nth_power_order (s : Z) :
  Z.gcd s N = 1 -> cong (N * N) ((s ^ N) ^ lam) 1.
Proof.
  intros Hs. pose proof N_gt_1. pose proof lam_nonneg.
  replace ((s ^ N) ^ lam) with ((s ^ lam) ^ N)
    by (rewrite <- !Z.pow_mul_r by lia; f_equal; ring).
  destruct (carmichael s Hs) as [a Ha].
  replace (s ^ lam) with (1 + a * N) by lia.
  apply cong_trans with (b := 1 + N * a * N).
  - apply pow_one_plus_multiple. lia.
  - exists a. ring.
Qed.

(** The heart of decryption: raising [g^k * s^N] to the power [lam]. *)
Lemma coset_power (c k s : Z) :
  0 <= k -> Z.gcd s N = 1 ->
  cong (N * N) c ((N + 1) ^ k * s ^ N) ->
  c ^ lam mod (N * N) = 1 + (k * lam mod N) * N.
Proof.
  intros Hk Hs Hc. pose proof N_gt_1 as HN. pose proof lam_nonneg as Hl.
  assert (Hcong : cong (N * N) (c ^ lam) (1 + (k * lam mod N) * N)).
  { apply cong_trans with (b := ((N + 1) ^ k * s ^ N) ^ lam);
      [now apply cong_pow |].
    rewrite Z.pow_mul_l.
    replace (1 + (k * lam mod N) * N) with ((1 + (k * lam mod N) * N) * 1)
      by ring.
    apply cong_mul; [| now apply nth_power_order].
    rewrite <- Z.pow_mul_r by lia.
    replace (N + 1) with (1 + 1 * N) by ring.
    apply cong_trans with (b := 1 + (k * lam) * 1 * N).
    - apply pow_one_plus_multiple. nia.
    - exists (k * lam / N).
      pose proof (Z.div_mod (k * lam) N ltac:(lia)). nia. }
  apply cong_mod_eq in Hcong. rewrite Hcong.
  apply Z.mod_small.
  pose proof (Z.mod_pos_bound (k * lam) N ltac:(lia)). nia.
Qed.

Lemma L_of_coset (r : Z) : (1 + r * N - 1) / N = r.
Proof.
  pose proof N_gt_1.
  replace (1 + r * N - 1) with (r * N) by ring.
  apply Z.div_mul. lia.
Qed.

Lemma mu_inverse : (Z.invmod lam N * lam) mod N = 1.
Proof.
  pose proof N_gt_1. apply Z.invmod_coprime; [lia | exact lam_coprime].
Qed.

(** [generatePaillierKey] after the two draws. *)
Lemma keygen_from_draws (bits : Z) (d1 d2 : nat) :
  Py.choice small_primes d1 = Ok p ->
  Py.choice (filter (fun x => negb (x =? p)) small_primes) d2 = Ok q ->
  generatePaillierKey bits d1 d2 = Ok (key_pub p q, key_priv p q).
Proof.
  intros H1 H2. pose proof N_gt_1 as HN. pose proof lam_nonneg as Hl.
  pose proof gcd_pred_pos as Hg.
  unfold generatePaillierKey. rewrite H1. cbn [bind]. rewrite H2. cbn [bind].
  unfold lcm, Py.gcd. rewrite floordiv_nonzero by lia. cbn [bind].
  fold (key_lambda p q). fold (key_n p q).
  rewrite pow_nonneg by nia. cbn [bind].
  rewrite floordiv_nonzero by lia. cbn [bind].
  assert (HL : ((N + 1) ^ lam mod (N * N) - 1) / N = lam mod N).
  { rewrite (coset_power (N + 1) 1 1).
    - rewrite Z.mul_1_l. apply L_of_coset.
    - lia.
    - apply Z.gcd_1_l.
    - rewrite Z.pow_1_r, Z.pow_1_l, Z.mul_1_r by lia. apply cong_refl. }
  rewrite HL.
  rewrite modInv_coprime; [| lia | rewrite Z.gcd_mod_l; exact lam_coprime].
  cbn [bind]. rewrite Z.invmod_mod_l. reflexivity.
Qed.

(** Decryption of any ciphertext of the form [g^k * s^N] modulo [N * N]. *)
Lemma decrypt_coset (c k s : Z) :
  0 <= k -> Z.gcd s N = 1 ->
  cong (N * N) c ((N + 1) ^ k * s ^ N) ->
  paillier_decrypt (key_pub p q) (key_priv p q) c = Ok (k mod N).
Proof.
  intros Hk Hs Hc. pose proof N_gt_1 as HN. pose proof lam_nonneg as Hl.
  unfold paillier_decrypt, key_pub, key_priv, newPaillierPublicKey.
  cbn [n n_sq lambda_ mu].
  rewrite pow_nonneg by nia. cbn [bind].
  rewrite floordiv_nonzero by lia. cbn [bind].
  rewrite modulo_nonzero by lia. f_equal.
  rewrite (coset_power c k s) by assumption.
  rewrite L_of_coset.
  rewrite Z.mul_mod_idemp_l by lia.
  replace (k * lam * Z.invmod lam N) with (k * (Z.invmod lam N * lam)) by ring.
  rewrite <- Z.mul_mod_idemp_r by lia.
  rewrite mu_inverse. now rewrite Z.mul_1_r.
Qed.

End KeyAlgebra.

(** *** Encryption *)

Lemma pow_total (b e m : Z) :
  m <> 0 -> 0 <= e -> exists x, Py.pow b e m = Ok x.
Proof.
  intros Hm He. unfold Py.pow.
  destruct (Z.eqb_spec m 0); [contradiction |].
  destruct (Z.abs m =? 1); [eexists; reflexivity |].
  destruct (Z.ltb_spec e 0); [lia |].
  eexists; reflexivity.
Qed.

Lemma encrypt_out_of_range (pub : PaillierPublicKey) (m : Z) (r : option Z)
    (draws : list Z) :
  ~ (0 <= m < n pub) ->
  paillier_encrypt pub m r draws = Raise (ValueError out_of_range).
Proof.
  intros H. unfold paillier_encrypt.
  destruct (Z.leb_spec 0 m); destruct (Z.ltb_spec m (n pub));
    try reflexivity; lia.
Qed.

Lemma encrypt_in_range (pub : PaillierPublicKey) (m r : Z) (draws : list Z) :
  n_sq pub = n pub * n pub -> 0 <= m < n pub ->
  exists c, paillier_encrypt pub m (Some r) draws = Ok c.
Proof.
  intros Hsq H. unfold paillier_encrypt.
  destruct (Z.leb_spec 0 m); [| lia].
  destruct (Z.ltb_spec m (n pub)); [| lia]. cbn [andb negb bind].
  destruct (pow_total (g pub) m (n_sq pub)) as [a ->]; [nia | lia |].
  destruct (pow_total r (n pub) (n_sq pub)) as [b ->]; [nia | lia |].
  cbn [bind]. rewrite modulo_nonzero by nia. eexists; reflexivity.
Qed.

Lemma encrypt_value (pub : PaillierPublicKey) (m r : Z) (draws : list Z) :
  n_sq pub = n pub * n pub -> 1 < n pub -> 0 <= m < n pub ->
  paillier_encrypt pub m (Some r) draws
  = Ok ((g pub ^ m mod n_sq pub * (r ^ n pub mod n_sq pub)) mod n_sq pub).
Proof.
  intros Hsq Hn H. unfold paillier_encrypt.
  destruct (Z.leb_spec 0 m); [| lia].
  destruct (Z.ltb_spec m (n pub)); [| lia]. cbn [andb negb bind].
  rewrite !pow_nonneg by nia. cbn [bind].
  now rewrite modulo_nonzero by nia.
Qed.

(** An encryption lies in the coset of [g^m] by the [n]-th powers. *)
Lemma encrypt_cong (M gg m r nn : Z) :
  cong M ((gg ^ m mod M * (r ^ nn mod M)) mod M) (gg ^ m * r ^ nn).
Proof.
  eapply cong_trans; [apply cong_mod_l |].
  apply cong_mul; apply cong_mod_l.
Qed.

(* ================================================================== *)
(** ** The fixed pool of primes *)
(* ================================================================== *)

Lemma trial_division_sound (p : Z) :
  1 < p -> trial_division p = true -> Z.prime p.
Proof.
  intros Hp Hcheck. split; [assumption |].
  intros d Hd Hdiv.
  unfold trial_division in Hcheck. rewrite forallb_forall in Hcheck.
  assert (Hin : In d (map Z.of_nat (seq 2 (Z.to_nat p - 2)))).
  { apply in_map_iff. exists (Z.to_nat d). split; [lia |].
    apply in_seq. lia. }
  apply Hcheck in Hin. apply negb_true_iff in Hin.
  apply Z.eqb_neq in Hin. apply Hin.
  apply Z.mod_divide; [lia | assumption].
Qed.

Lemma small_primes_prime (p : Z) : In p small_primes -> Z.prime p.
Proof.
  intros Hin.
  assert (H : forallb (fun x => (1 <? x) && trial_division x) small_primes
              = true) by (vm_compute; reflexivity).
  rewrite forallb_forall in H. apply H in Hin.
  apply andb_true_iff in Hin. destruct Hin as [H1 H2].
  apply trial_division_sound; [now apply Z.ltb_lt | assumption].
Qed.

Lemma small_primes_lambda_coprime (p q : Z) :
  In p small_primes -> In q small_primes -> p <> q ->
  Z.gcd (key_lambda p q) (key_n p q) = 1.
Proof.
  intros Hp Hq Hne.
  assert (H : forallb (fun x => forallb (fun y =>
                 (x =? y) || (Z.gcd (key_lambda x y) (key_n x y) =? 1))
                 small_primes) small_primes = true)
    by (vm_compute; reflexivity).
  rewrite forallb_forall in H. specialize (H p Hp).
  rewrite forallb_forall in H. specialize (H q Hq).
  apply orb_true_iff in H. destruct H as [H | H].
  - apply Z.eqb_eq in H. contradiction.
  - now apply Z.eqb_eq.
Qed.

(** The two draws always succeed and give two distinct members of the
    pool. *)
Lemma keygen_draws (d1 d2 : nat) :
  exists p q,
    Py.choice small_primes d1 = Ok p /\
    Py.choice (filter (fun x => negb (x =? p)) small_primes) d2 = Ok q /\
    In p small_primes /\ In q small_primes /\ p <> q.
Proof.
  destruct (choice_In small_primes d1) as [p [Hp Hinp]]; [discriminate |].
  assert (Hne : filter (fun x => negb (x =? p)) small_primes <> []).
  { assert (Hin : exists y, In y small_primes /\ y <> p).
    { destruct (Z.eq_dec p 101) as [-> | Hd].
      - exists 103. split; [simpl; tauto | lia].
      - exists 101. split; [simpl; tauto | lia]. }
    destruct Hin as [y [Hy Hyp]].
    intros E.
    assert (Hf : In y (filter (fun x => negb (x =? p)) small_primes)).
    { apply filter_In. split; [assumption |].
      apply negb_true_iff. now apply Z.eqb_neq. }
    rewrite E in Hf. contradiction. }
  destruct (choice_In _ d2 Hne) as [q [Hq Hinq]].
  apply filter_In in Hinq. destruct Hinq as [Hinq Hqp].
  apply negb_true_iff in Hqp. apply Z.eqb_neq in Hqp.
  exists p, q. repeat split; auto.
Qed.

(** Every run of [generatePaillierKey] returns the keys of two distinct
    primes of the pool. *)
Lemma keygen_result (bits : Z) (d1 d2 : nat) :
  exists p q,
    In p small_primes /\ In q small_primes /\ p <> q /\
    Py.choice small_primes d1 = Ok p /\
    Py.choice (filter (fun x => negb (x =? p)) small_primes) d2 = Ok q /\
    generatePaillierKey bits d1 d2 = Ok (key_pub p q, key_priv p q).
Proof.
  destruct (keygen_draws d1 d2) as [p [q [H1 [H2 [Hp [Hq Hne]]]]]].
  exists p, q. repeat split; trivial.
  apply keygen_from_draws; trivial.
  - now apply small_primes_prime.
  - now apply small_primes_prime.
  - now apply small_primes_lambda_coprime.
Qed.

(** Decryption under a generated key of anything congruent to
    [g^k * s^n]. *)
Lemma generated_decrypt_coset (bits : Z) (d1 d2 : nat)
    (pub : PaillierPublicKey) (priv : PaillierPrivateKey) (c k s : Z) :
  generatePaillierKey bits d1 d2 = Ok (pub, priv) ->
  0 <= k -> Z.gcd s (n pub) = 1 ->
  cong (n_sq pub) c (g pub ^ k * s ^ n pub) ->
  paillier_decrypt pub priv c = Ok (k mod n pub).
Proof.
  intros Hgen Hk Hs Hc.
  destruct (keygen_result bits d1 d2) as [p [q [Hp [Hq [Hne [_ [_ E]]]]]]].
  rewrite E in Hgen. injection Hgen as <- <-.
  apply decrypt_coset with (s := s); trivial.
  - now apply small_primes_prime.
  - now apply small_primes_prime.
  - now apply small_primes_lambda_coprime.
Qed.

Lemma generated_pub_shape (bits : Z) (d1 d2 : nat)
    (pub : PaillierPublicKey) (priv : PaillierPrivateKey) :
  generatePaillierKey bits d1 d2 = Ok (pub, priv) ->
  1 < n pub /\ g pub = n pub + 1 /\ n_sq pub = n pub * n pub.
Proof.
  intros Hgen.
  destruct (keygen_result bits d1 d2) as [p [q [Hp [Hq [Hne [_ [_ E]]]]]]].
  rewrite E in Hgen. injection Hgen as <- <-.
  repeat split.
  apply N_gt_1; auto using small_primes_prime.
Qed.

(** Encrypting and then decrypting under a generated key. *)
Lemma generated_roundtrip (bits : Z) (d1 d2 : nat)
    (pub : PaillierPublicKey) (priv : PaillierPrivateKey)
    (m r : Z) (draws : list Z) :
  generatePaillierKey bits d1 d2 = Ok (pub, priv) ->
  0 <= m < n pub -> Z.gcd r (n pub) = 1 ->
  (c <- paillier_encrypt pub m (Some r) draws ;;
   paillier_decrypt pub priv c) = Ok m.
Proof.
  intros Hgen Hm Hr.
  destruct (generated_pub_shape _ _ _ _ _ Hgen) as [Hn [Hg Hsq]].
  rewrite encrypt_value by assumption. cbn [bind].
  rewrite (generated_decrypt_coset bits d1 d2 pub priv _ m r); trivial.
  - now rewrite Z.mod_small.
  - lia.
  - apply encrypt_cong.
Qed.

(** The range check is the only source of its error message. *)
Lemma pow_not_out_of_range (b e m : Z) :
  Py.pow b e m <> Raise (ValueError out_of_range).
Proof.
  unfold Py.pow.
  destruct (m =? 0); [discriminate |].
  destruct (Z.abs m =? 1); [discriminate |].
  destruct (e <? 0); [| discriminate].
  destruct (Z.gcd b (Z.abs m) =? 1); discriminate.
Qed.

Lemma getRandom_not_out_of_range (nn : Z) (draws : list Z) :
  getRandom nn draws <> Raise (ValueError out_of_range).
Proof.
  induction draws as [| d rest IH]; simpl; [discriminate |].
  unfold Py.randrange. destruct (nn <=? 1); [discriminate |].
  cbn [bind]. destruct (Py.gcd _ nn =? 1); [discriminate | exact IH].
Qed.

Lemma encrypt_out_of_range_iff (pub : PaillierPublicKey) (m : Z)
    (r : option Z) (draws : list Z) :
  paillier_encrypt pub m r draws = Raise (ValueError out_of_range)
  <-> ~ (0 <= m < n pub).
Proof.
  split; [| apply encrypt_out_of_range].
  intros H Hm. revert H. unfold paillier_encrypt.
  destruct (Z.leb_spec 0 m); [| lia].
  destruct (Z.ltb_spec m (n pub)); [| lia]. cbn [andb negb].
  assert (Hr : forall r0 : Z,
    (a <- Py.pow (g pub) m (n_sq pub) ;;
     b <- Py.pow r0 (n pub) (n_sq pub) ;;
     (a * b) %% n_sq pub) <> Raise (ValueError out_of_range)).
  { intros r0.
    pose proof (pow_not_out_of_range (g pub) m (n_sq pub)) as Ha.
    destruct (Py.pow (g pub) m (n_sq pub)) as [a | e | ]; cbn [bind];
      [| exact Ha | discriminate].
    pose proof (pow_not_out_of_range r0 (n pub) (n_sq pub)) as Hb.
    destruct (Py.pow r0 (n pub) (n_sq pub)) as [b | e | ]; cbn [bind];
      [| exact Hb | discriminate].
    unfold Py.modulo. destruct (n_sq pub =? 0); discriminate. }
  destruct r as [r0 |]; cbn [bind]; [apply Hr |].
  pose proof (getRandom_not_out_of_range (n pub) draws) as Hg.
  destruct (getRandom (n pub) draws) as [r0 | e | ]; cbn [bind];
    [apply Hr | exact Hg | discriminate].
Qed.

(** What [getRandom] returns is in [1, n-1] and coprime to [n]. *)
Lemma getRandom_coprime (nn : Z) (draws : list Z) :
  forall r, getRandom nn draws = Ok r -> 1 <= r < nn /\ Z.gcd r nn = 1.
Proof.
  induction draws as [| d rest IH]; intros r; cbn [getRandom];
    [discriminate |].
  unfold Py.randrange. destruct (Z.leb_spec nn 1) as [Hle | Hgt];
    [discriminate |].
  cbn [bind]. unfold Py.gcd.
  destruct (Z.eqb_spec (Z.gcd (1 + d mod (nn - 1)) nn) 1) as [E | E];
    [| apply IH].
  intros Hret.
  assert (Hr : r = 1 + d mod (nn - 1)) by congruence.
  rewrite Hr. split; [| exact E].
  pose proof (Z.mod_pos_bound d (nn - 1) ltac:(lia)). lia.
Qed.

(** The round trip also holds when [paillier_encrypt] draws [r] itself. *)
Lemma generated_roundtrip_drawn (bits : Z) (d1 d2 : nat)
    (pub : PaillierPublicKey) (priv : PaillierPrivateKey)
    (m c : Z) (draws : list Z) :
  generatePaillierKey bits d1 d2 = Ok (pub, priv) ->
  paillier_encrypt pub m None draws = Ok c ->
  paillier_decrypt pub priv c = Ok m.
Proof.
  intros Hgen Henc.
  assert (Hm : 0 <= m < n pub).
  { destruct (Z.le_gt_cases 0 m); destruct (Z.lt_ge_cases m (n pub));
      try lia;
      rewrite encrypt_out_of_range in Henc by lia; discriminate. }
  assert (Hr : exists r, getRandom (n pub) draws = Ok r /\
                         paillier_encrypt pub m (Some r) draws = Ok c).
  { revert Henc. unfold paillier_encrypt.
    destruct (Z.leb_spec 0 m); [| lia].
    destruct (Z.ltb_spec m (n pub)); [| lia]. cbn [andb negb].
    destruct (getRandom (n pub) draws) as [r | e | ]; cbn [bind];
      try discriminate.
    intros Hret. exists r. split; [reflexivity | exact Hret]. }
  destruct Hr as [r [Hr Hc]].
  apply getRandom_coprime in Hr. destruct Hr as [_ Hr].
  pose proof (generated_roundtrip bits d1 d2 pub priv m r draws Hgen Hm Hr)
    as RT.
  rewrite Hc in RT. exact RT.
Qed.

(* ================================================================== *)
(** ** Properties of the cipher *)
(* ================================================================== *)

(** C1. Round trip: under every key pair returned by
    [generatePaillierKey], every plaintext [0 <= m < n] encrypted with
    any randomizer [r] coprime to [n] (in particular every
    [1 <= r < n] with [gcd(r, n) = 1]) decrypts to [m]; the result does
    not depend on [r]. *)
Theorem paillier_roundtrip (bits : Z) (d1 d2 : nat)
    (pub : PaillierPublicKey) (priv : PaillierPrivateKey)
    (m r : Z) (draws : list Z) :
  generatePaillierKey bits d1 d2 = Ok (pub, priv) ->
  0 <= m < n pub ->
  1 <= r < n pub -> Z.gcd r (n pub) = 1 ->
  (c <- paillier_encrypt pub m (Some r) draws ;;
   paillier_decrypt pub priv c) = Ok m.
Proof.
  intros Hgen Hm _ Hr.
  now apply generated_roundtrip with (bits := bits) (d1 := d1) (d2 := d2).
Qed.

Lemma paillier_roundtrip_witness :
  generatePaillierKey 512 0 0 = Ok (sample_pub, sample_priv) /\
  (c <- paillier_encrypt sample_pub 42 (Some 2) [] ;;
   paillier_decrypt sample_pub sample_priv c) = Ok 42.
Proof.
  split; [vm_compute; reflexivity |].
  apply (paillier_roundtrip 512 0 0 sample_pub sample_priv 42 2 []).
  - vm_compute; reflexivity.
  - simpl; lia.
  - simpl; lia.
  - vm_compute; reflexivity.
Defined.

(** C2. Additive homomorphism: under a generated key pair, the
    homomorphic sum of encryptions of [a] and [b] (both in [0, n),
    randomizers coprime to [n]) decrypts to [(a + b) mod n]. *)
Theorem paillier_additive_homomorphism (bits : Z) (d1 d2 : nat)
    (pub : PaillierPublicKey) (priv : PaillierPrivateKey)
    (a b r1 r2 : Z) (draws1 draws2 : list Z) :
  generatePaillierKey bits d1 d2 = Ok (pub, priv) ->
  0 <= a < n pub -> 0 <= b < n pub ->
  Z.gcd r1 (n pub) = 1 -> Z.gcd r2 (n pub) = 1 ->
  (c1 <- paillier_encrypt pub a (Some r1) draws1 ;;
   c2 <- paillier_encrypt pub b (Some r2) draws2 ;;
   c <- homomorphic_add pub c1 c2 ;;
   paillier_decrypt pub priv c) = Ok ((a + b) mod n pub).
Proof.
  intros Hgen Ha Hb Hr1 Hr2.
  destruct (generated_pub_shape _ _ _ _ _ Hgen) as [Hn [Hg Hsq]].
  rewrite !encrypt_value by assumption. cbn [bind].
  unfold homomorphic_add.
  rewrite modulo_nonzero by nia. cbn [bind].
  apply (generated_decrypt_coset bits d1 d2 pub priv _ (a + b) (r1 * r2));
    trivial.
  - lia.
  - now apply Z.coprime_mul_l.
  - eapply cong_trans; [apply cong_mod_l |].
    rewrite Z.pow_add_r by lia. rewrite Z.pow_mul_l.
    replace (g pub ^ a * g pub ^ b * (r1 ^ n pub * r2 ^ n pub))
      with ((g pub ^ a * r1 ^ n pub) * (g pub ^ b * r2 ^ n pub))
      by ring.
    apply cong_mul; apply encrypt_cong.
Qed.

Lemma paillier_additive_homomorphism_witness :
  (c1 <- paillier_encrypt sample_pub 3 (Some 2) [] ;;
   c2 <- paillier_encrypt sample_pub 5 (Some 3) [] ;;
   c <- homomorphic_add sample_pub c1 c2 ;;
   paillier_decrypt sample_pub sample_priv c) = Ok 8.
Proof.
  apply (paillier_additive_homomorphism 512 0 0 sample_pub sample_priv
           3 5 2 3 [] []).
  - vm_compute; reflexivity.
  - simpl; lia.
  - simpl; lia.
  - vm_compute; reflexivity.
  - vm_compute; reflexivity.
Defined.

(** C4. Range check of [paillier_encrypt]: the out-of-range
    [ValueError] is raised exactly when [m] is outside [0, n); a plaintext
    in range with a supplied [r] is encrypted without error.  Under a
    generated key, [0] and [n - 1] are encrypted and decrypt to
    themselves, and [n] is rejected. *)
Theorem encrypt_range_check :
  (forall pub m r draws,
      paillier_encrypt pub m r draws = Raise (ValueError out_of_range)
      <-> ~ (0 <= m < n pub))
  /\ (forall nn gg m r draws,
      0 <= m < nn ->
      exists c,
        paillier_encrypt (newPaillierPublicKey nn gg) m (Some r) draws = Ok c)
  /\ (forall bits d1 d2 pub priv r draws,
      generatePaillierKey bits d1 d2 = Ok (pub, priv) ->
      Z.gcd r (n pub) = 1 ->
      (c <- paillier_encrypt pub 0 (Some r) draws ;;
       paillier_decrypt pub priv c) = Ok 0
      /\ (c <- paillier_encrypt pub (n pub - 1) (Some r) draws ;;
          paillier_decrypt pub priv c) = Ok (n pub - 1)
      /\ paillier_encrypt pub (n pub) (Some r) draws
         = Raise (ValueError out_of_range)).
Proof.
  split; [exact encrypt_out_of_range_iff |].
  split.
  - intros nn gg m r draws Hm. now apply encrypt_in_range.
  - intros bits d1 d2 pub priv r draws Hgen Hr.
    destruct (generated_pub_shape _ _ _ _ _ Hgen) as [Hn _].
    repeat split.
    + apply generated_roundtrip with (bits := bits) (d1 := d1) (d2 := d2);
        trivial; lia.
    + apply generated_roundtrip with (bits := bits) (d1 := d1) (d2 := d2);
        trivial; lia.
    + apply encrypt_out_of_range. lia.
Qed.

Lemma encrypt_range_check_witness :
  (exists c,
     paillier_encrypt (newPaillierPublicKey 10403 10404) 7 (Some 2) [] = Ok c)
  /\ (c <- paillier_encrypt sample_pub 0 (Some 2) [] ;;
      paillier_decrypt sample_pub sample_priv c) = Ok 0
  /\ (c <- paillier_encrypt sample_pub 10402 (Some 2) [] ;;
      paillier_decrypt sample_pub sample_priv c) = Ok 10402
  /\ paillier_encrypt sample_pub 10403 (Some 2) []
     = Raise (ValueError out_of_range).
Proof.
  split.
  - apply (proj1 (proj2 encrypt_range_check) 10403 10404 7 2 []). lia.
  - apply (proj2 (proj2 encrypt_range_check) 512 0%nat 0%nat
             sample_pub sample_priv 2 []).
    + vm_compute; reflexivity.
    + vm_compute; reflexivity.
Defined.

(* ================================================================== *)
(** ** Properties of key generation *)
(* ================================================================== *)

(** C5. Key generation never propagates an error: for every pair of
    draws the two primes are distinct, the L-value handed to [modInv]
    is invertible modulo [n], [modInv] returns [mu], and
    [generatePaillierKey] returns a key pair.  Neither condition that
    would call for a retry can occur. *)
Theorem keygen_never_raises (bits : Z) (d1 d2 : nat) :
  exists p q pub priv,
    Py.choice small_primes d1 = Ok p /\
    Py.choice (filter (fun x => negb (x =? p)) small_primes) d2 = Ok q /\
    p <> q /\
    generatePaillierKey bits d1 d2
    = (mu <- modInv (keygen_l_val p q) (p * q) ;;
       Ok (newPaillierPublicKey (p * q) (p * q + 1),
           newPaillierPrivateKey (key_lambda p q) mu)) /\
    Z.gcd (keygen_l_val p q) (p * q) = 1 /\
    modInv (keygen_l_val p q) (p * q) = Ok (mu priv) /\
    generatePaillierKey bits d1 d2 = Ok (pub, priv).
Proof.
  destruct (keygen_result bits d1 d2) as [p [q [Hp [Hq [Hne [H1 [H2 E]]]]]]].
  exists p, q, (key_pub p q), (key_priv p q).
  pose proof (small_primes_prime p Hp) as Pp.
  pose proof (small_primes_prime q Hq) as Pq.
  pose proof (small_primes_lambda_coprime p q Hp Hq Hne) as Hco.
  pose proof (N_gt_1 p q Pp Pq Hne) as HN.
  assert (HL : keygen_l_val p q = key_lambda p q mod key_n p q).
  { unfold keygen_l_val. fold (key_n p q). fold (key_lambda p q).
    rewrite (coset_power p q Pp Pq Hne (key_n p q + 1) 1 1).
    - rewrite Z.mul_1_l. now apply L_of_coset.
    - lia.
    - apply Z.gcd_1_l.
    - rewrite Z.pow_1_r, Z.pow_1_l, Z.mul_1_r by lia. apply cong_refl. }
  assert (Hg : Z.gcd (keygen_l_val p q) (p * q) = 1).
  { rewrite HL. fold (key_n p q). now rewrite Z.gcd_mod_l. }
  repeat split; trivial.
  - pose proof (gcd_pred_pos p q Pp) as Hgp. unfold key_n in HN.
    unfold generatePaillierKey. rewrite H1. cbn [bind]. rewrite H2.
    cbn [bind]. unfold lcm, Py.gcd.
    rewrite floordiv_nonzero by lia. cbn [bind].
    pose proof (lam_nonneg p q Pp Pq) as Hl. unfold key_lambda in Hl.
    rewrite pow_nonneg by nia. cbn [bind].
    rewrite floordiv_nonzero by lia. cbn [bind]. reflexivity.
  - change (p * q) with (key_n p q) in *.
    rewrite modInv_coprime; [| exact HN | exact Hg].
    rewrite HL, Z.invmod_mod_l. reflexivity.
Qed.

(** C10. [generatePaillierKey] does not look at [bits]; it draws [p]
    from the ten-element pool and [q] from the pool without [p], so
    [p <> q], and the public key has [n = p * q], [g = n + 1] and
    [n_sq = n * n]. *)
Theorem keygen_pool_invariant (bits : Z) (d1 d2 : nat) :
  small_primes = [101; 103; 107; 109; 113; 127; 131; 137; 139; 149] /\
  (forall bits', generatePaillierKey bits' d1 d2
                 = generatePaillierKey bits d1 d2) /\
  exists p q pub priv,
    In p small_primes /\ In q small_primes /\ p <> q /\
    generatePaillierKey bits d1 d2 = Ok (pub, priv) /\
    n pub = p * q /\ g pub = n pub + 1 /\ n_sq pub = n pub * n pub.
Proof.
  split; [reflexivity |]. split; [reflexivity |].
  destruct (keygen_result bits d1 d2) as [p [q [Hp [Hq [Hne [_ [_ E]]]]]]].
  exists p, q, (key_pub p q), (key_priv p q).
  repeat split; trivial.
Qed.

(* ================================================================== *)
(** ** Homomorphic aggregation *)
(* ================================================================== *)

Lemma pow_one_base (e m : Z) : 1 < m -> Py.pow 1 e m = Ok 1.
Proof.
  intros Hm. unfold Py.pow.
  destruct (Z.eqb_spec m 0); [lia |].
  destruct (Z.eqb_spec (Z.abs m) 1); [lia |].
  destruct (Z.ltb_spec e 0).
  - rewrite Z.gcd_1_l. cbn [Z.eqb Pos.eqb].
    rewrite Zpow_mod_correct by lia.
    replace (Z.abs m) with m by lia.
    rewrite Z.invmod_1_l, Z.mod_1_l by lia.
    rewrite Z.pow_1_l by lia. now rewrite Z.mod_1_l.
  - rewrite Zpow_mod_correct by lia.
    rewrite Z.pow_1_l by lia. now rewrite Z.mod_1_l.
Qed.

Lemma add_many_loop_value (pub : PaillierPublicKey) (cs : list Z) :
  n_sq pub <> 0 -> forall acc,
  add_many_loop pub acc cs
  = Ok (match cs with
        | [] => acc
        | _ :: _ => (acc * product cs) mod n_sq pub
        end).
Proof.
  intros Hsq. induction cs as [| c rest IH]; intros acc; [reflexivity |].
  cbn [add_many_loop]. rewrite modulo_nonzero by assumption. cbn [bind].
  rewrite IH. f_equal. destruct rest as [| c' rest'].
  - unfold product. simpl. now rewrite Z.mul_1_r.
  - rewrite Z.mul_mod_idemp_l by assumption. f_equal.
    change (product (c :: c' :: rest')) with (c * product (c' :: rest')).
    ring.
Qed.

Lemma product_Permutation (l l' : list Z) :
  Permutation l l' -> product l = product l'.
Proof.
  induction 1 as [| x l l' _ IH | x y l | l l' l'' _ IH1 _ IH2].
  - reflexivity.
  - unfold product in *. simpl. now rewrite IH.
  - unfold product. simpl. ring.
  - now rewrite IH1.
Qed.

Lemma add_many_Permutation (pub : PaillierPublicKey) (cs cs' : list Z) :
  Permutation cs cs' ->
  homomorphic_add_many pub cs = homomorphic_add_many pub cs'.
Proof.
  intros HP.
  destruct cs as [| c rest].
  - apply Permutation_nil in HP. now subst.
  - destruct cs' as [| c' rest'].
    + apply Permutation_sym, Permutation_nil in HP. discriminate.
    + cbn [homomorphic_add_many].
      destruct (Z.eq_dec (n_sq pub) 0) as [E | E].
      * cbn [add_many_loop]. rewrite E. reflexivity.
      * rewrite !add_many_loop_value by assumption.
        now rewrite (product_Permutation _ _ HP).
Qed.

Lemma product_app (l1 l2 : list Z) :
  product (l1 ++ l2) = product l1 * product l2.
Proof.
  unfold product. induction l1 as [| x l1 IH]; simpl.
  - now destruct (fold_right Z.mul 1 l2).
  - rewrite IH. ring.
Qed.

(** With a modulus above one, the aggregate is the product of the list
    reduced modulo [n_sq]. *)
Lemma add_many_value (pub : PaillierPublicKey) (cs : list Z) :
  1 < n_sq pub ->
  homomorphic_add_many pub cs = Ok (product cs mod n_sq pub).
Proof.
  intros Hsq. destruct cs as [| c rest].
  - cbn [homomorphic_add_many].
    rewrite pow_nonneg by lia. rewrite pow_one_base by lia. cbn [bind].
    rewrite modulo_nonzero by lia.
    rewrite Z.pow_0_r, Z.mod_1_l, Z.mul_1_r by lia. reflexivity.
  - cbn [homomorphic_add_many].
    rewrite add_many_loop_value by lia. now rewrite Z.mul_1_l.
Qed.

(** C3. Fold consistency: [homomorphic_add_many] gives the same result
    (value or exception) on every permutation of the ciphertext list;
    [homomorphic_add] is commutative and associative; and, for a
    modulus above one, the list may be split anywhere and the two
    partial aggregates combined with [homomorphic_add]. *)
Theorem fold_consistency (pub : PaillierPublicKey) :
  (forall cs cs', Permutation cs cs' ->
     homomorphic_add_many pub cs = homomorphic_add_many pub cs')
  /\ (forall c1 c2, homomorphic_add pub c1 c2 = homomorphic_add pub c2 c1)
  /\ (forall c1 c2 c3,
        (x <- homomorphic_add pub c1 c2 ;; homomorphic_add pub x c3)
        = (y <- homomorphic_add pub c2 c3 ;; homomorphic_add pub c1 y))
  /\ (1 < n_sq pub ->
      forall cs1 cs2,
        homomorphic_add_many pub (cs1 ++ cs2)
        = (x <- homomorphic_add_many pub cs1 ;;
           y <- homomorphic_add_many pub cs2 ;;
           homomorphic_add pub x y)).
Proof.
  split; [apply add_many_Permutation |]. split; [| split].
  - intros c1 c2. unfold homomorphic_add. now rewrite Z.mul_comm.
  - intros c1 c2 c3. unfold homomorphic_add, Py.modulo.
    destruct (Z.eqb_spec (n_sq pub) 0) as [E | E]; [reflexivity |].
    cbn [bind]. destruct (Z.eqb_spec (n_sq pub) 0); [contradiction |].
    f_equal.
    rewrite Z.mul_mod_idemp_l, Z.mul_mod_idemp_r by assumption.
    f_equal. ring.
  - intros Hsq cs1 cs2. rewrite !add_many_value by assumption.
    cbn [bind]. unfold homomorphic_add. rewrite modulo_nonzero by lia.
    rewrite product_app. now rewrite <- Z.mul_mod by lia.
Qed.

Lemma fold_consistency_witness :
  homomorphic_add_many sample_pub [2; 3; 5]
  = homomorphic_add_many sample_pub [5; 2; 3]
  /\ homomorphic_add_many sample_pub ([2; 3] ++ [5; 7])
     = (x <- homomorphic_add_many sample_pub [2; 3] ;;
        y <- homomorphic_add_many sample_pub [5; 7] ;;
        homomorphic_add sample_pub x y).
Proof.
  split.
  - apply (proj1 (fold_consistency sample_pub) [2; 3; 5] [5; 2; 3]).
    apply perm_trans with (l' := [2; 5; 3]).
    + apply perm_skip, perm_swap.
    + apply perm_swap.
  - apply (proj2 (proj2 (proj2 (fold_consistency sample_pub)))
             ltac:(simpl; lia) [2; 3] [5; 7]).
Defined.

(** C8. Empty aggregation: for a public key with modulus [n > 1],
    [homomorphic_add_many(pub, [])] returns the encryption of 0 with
    [r = 1], which is the constant 1, and this value decrypts to 0
    (under any private key, so under the matching one). *)
Theorem empty_aggregation_identity (nn gg : Z) (draws : list Z) :
  1 < nn ->
  let pub := newPaillierPublicKey nn gg in
  homomorphic_add_many pub [] = paillier_encrypt pub 0 (Some 1) draws
  /\ homomorphic_add_many pub [] = Ok 1
  /\ forall priv,
       (c <- homomorphic_add_many pub [] ;; paillier_decrypt pub priv c)
       = Ok 0.
Proof.
  intros Hn pub.
  assert (Hsq : 1 < nn * nn) by nia.
  assert (Hempty : homomorphic_add_many pub [] = Ok 1).
  { unfold homomorphic_add_many, pub, newPaillierPublicKey. cbn [n g n_sq].
    rewrite pow_nonneg by lia. rewrite pow_one_base by lia. cbn [bind].
    rewrite modulo_nonzero by lia.
    rewrite Z.pow_0_r, Z.mod_1_l, Z.mul_1_r, Z.mod_1_l by lia.
    reflexivity. }
  repeat split.
  - rewrite Hempty. unfold pub.
    rewrite encrypt_value; cbn [n g n_sq newPaillierPublicKey];
      [| reflexivity | lia | lia].
    rewrite Z.pow_0_r, Z.pow_1_l by lia.
    rewrite Z.mod_1_l, Z.mul_1_r, Z.mod_1_l by lia. reflexivity.
  - exact Hempty.
  - intros priv. rewrite Hempty. cbn [bind].
    unfold paillier_decrypt, pub, newPaillierPublicKey. cbn [n n_sq].
    rewrite pow_one_base by lia. cbn [bind].
    rewrite floordiv_nonzero by lia. cbn [bind].
    rewrite modulo_nonzero by lia.
    rewrite Z.sub_diag, Z.div_0_l by lia. reflexivity.
Qed.

Lemma empty_aggregation_identity_witness :
  homomorphic_add_many sample_pub [] = Ok 1
  /\ (c <- homomorphic_add_many sample_pub [] ;;
      paillier_decrypt sample_pub sample_priv c) = Ok 0.
Proof.
  destruct (empty_aggregation_identity 10403 10404 [] ltac:(lia))
    as [_ [H1 H2]].
  split; [exact H1 | exact (H2 sample_priv)].
Defined.

(* ================================================================== *)
(** ** Vote vectors *)
(* ================================================================== *)

Lemma update_length (v : list Z) (i : nat) (x : Z) :
  List.length (Py.update v i x) = List.length v.
Proof.
  revert i. induction v as [| h t IH]; intros [| i]; simpl; auto.
Qed.

Lemma nth_update (v : list Z) (i j : nat) (x d : Z) :
  (i < List.length v)%nat ->
  nth j (Py.update v i x) d = if (j =? i)%nat then x else nth j v d.
Proof.
  revert i j. induction v as [| h t IH]; intros i j Hi; simpl in Hi; [lia |].
  destruct i as [| i]; destruct j as [| j]; simpl; trivial.
  apply IH. lia.
Qed.

Lemma setitem_zeros (k : nat) (i : nat) :
  (i < k)%nat ->
  one_hot (Py.update (repeat 0 k) i 1) (Z.of_nat k) (Z.of_nat i).
Proof.
  intros Hi. split.
  - now rewrite update_length, repeat_length.
  - intros j Hj. rewrite nth_update by now rewrite repeat_length.
    rewrite nth_repeat.
    destruct (Nat.eqb_spec j i) as [-> | Hne].
    + now rewrite Z.eqb_refl.
    + destruct (Z.eqb_spec (Z.of_nat j) (Z.of_nat i)); [lia | reflexivity].
Qed.

(** C7, as the code has it.  [encode_vote(index, k)] returns the
    one-hot vector of length [k] with its 1 at [index] when
    [0 <= index < k]; a negative index down to [-k] is accepted and
    counts from the end, so the 1 is at [index + k]; every other index
    raises [IndexError]. *)
Theorem encode_vote_indexing (index k : Z) :
  (0 <= index < k ->
     exists v, encode_vote index k = Ok v /\ one_hot v k index)
  /\ (- k <= index < 0 ->
     exists v, encode_vote index k = Ok v /\ one_hot v k (index + k))
  /\ (index < - k \/ k <= index -> encode_vote index k = Raise IndexError).
Proof.
  unfold encode_vote, Py.list_mul, Py.setitem. rewrite repeat_length.
  repeat split.
  - intros H. rewrite (Z2Nat.id k) by lia.
    destruct (Z.ltb_spec index 0); [lia |].
    destruct (Z.ltb_spec index 0); [lia |].
    destruct (Z.leb_spec k index); [lia |].
    cbn [orb]. eexists. split; [reflexivity |].
    pose proof (setitem_zeros (Z.to_nat k) (Z.to_nat index) ltac:(lia)) as S.
    now rewrite !Z2Nat.id in S by lia.
  - intros H. rewrite (Z2Nat.id k) by lia.
    destruct (Z.ltb_spec index 0); [| lia].
    destruct (Z.ltb_spec (index + k) 0); [lia |].
    destruct (Z.leb_spec k (index + k)); [lia |].
    cbn [orb]. eexists. split; [reflexivity |].
    pose proof (setitem_zeros (Z.to_nat k) (Z.to_nat (index + k))
                  ltac:(lia)) as S.
    now rewrite !Z2Nat.id in S by lia.
  - intros H. destruct (Z.ltb_spec index 0).
    + destruct (Z.ltb_spec (index + Z.of_nat (Z.to_nat k)) 0);
        [reflexivity | lia].
    + destruct (Z.ltb_spec index 0); [lia |].
      destruct (Z.leb_spec (Z.of_nat (Z.to_nat k)) index);
        [reflexivity | lia].
Qed.

Lemma encode_vote_indexing_witness :
  (exists v, encode_vote 1 4 = Ok v /\ one_hot v 4 1)
  /\ (exists v, encode_vote (-1) 4 = Ok v /\ one_hot v 4 (-1 + 4))
  /\ encode_vote 4 4 = Raise IndexError.
Proof.
  split; [| split].
  - apply (proj1 (encode_vote_indexing 1 4)). lia.
  - apply (proj1 (proj2 (encode_vote_indexing (-1) 4))). lia.
  - apply (proj2 (proj2 (encode_vote_indexing 4 4))). lia.
Defined.

(** A negative index is outside [0, k) and yet accepted:
    [encode_vote(-1, 3)] returns [[0, 0, 1]] instead of failing. *)
Lemma encode_vote_negative_index_accepted :
  ~ (0 <= -1 < 3) /\ encode_vote (-1) 3 = Ok [0; 0; 1].
Proof. split; [lia | reflexivity]. Qed.

Lemma comprehension_add_zip (pub : PaillierPublicKey) :
  n_sq pub <> 0 ->
  forall a b : list Z,
  exists v,
    Py.comprehension (fun '(x, y) => homomorphic_add pub x y) (combine a b)
    = Ok v /\
    List.length v = Nat.min (List.length a) (List.length b) /\
    forall i, (i < List.length v)%nat ->
      homomorphic_add pub (nth i a 0) (nth i b 0) = Ok (nth i v 0).
Proof.
  intros Hsq. induction a as [| x a IH]; intros b.
  - exists []. simpl. repeat split; trivial. intros i Hi. lia.
  - destruct b as [| y b].
    + exists []. simpl. repeat split; trivial. intros i Hi. lia.
    + destruct (IH b) as [v [Hv [Hlen Hnth]]].
      exists ((x * y) mod n_sq pub :: v).
      cbn [combine Py.comprehension]. unfold homomorphic_add at 1.
      rewrite modulo_nonzero by assumption. cbn [bind].
      rewrite Hv. cbn [bind]. repeat split.
      * simpl. now rewrite Hlen.
      * intros [| i] Hi; cbn [nth].
        -- unfold homomorphic_add. now rewrite modulo_nonzero.
        -- apply Hnth. simpl in Hi. lia.
Qed.

(** C6, as the code has it.  [add_vectors] makes no length check: it
    works on [zip(a, b)], that is on the first [min(len a, len b)]
    positions of both vectors, and what a longer vector has beyond that
    is dropped.  On those positions (all of them when the lengths
    match) the result is the elementwise [homomorphic_add], and with a
    non-zero [n_sq] no exception is raised. *)
Theorem add_vectors_zip (pub : PaillierPublicKey) (a b : list Z) :
  let k := Nat.min (List.length a) (List.length b) in
  add_vectors a b pub = add_vectors (firstn k a) (firstn k b) pub
  /\ (n_sq pub <> 0 ->
      exists v,
        add_vectors a b pub = Ok v /\
        List.length v = k /\
        forall i, (i < k)%nat ->
          homomorphic_add pub (nth i a 0) (nth i b 0) = Ok (nth i v 0)).
Proof.
  intros k. split.
  - unfold add_vectors. rewrite <- combine_firstn.
    rewrite firstn_all2; [reflexivity |].
    rewrite length_combine. unfold k. lia.
  - intros Hsq.
    destruct (comprehension_add_zip pub Hsq a b) as [v [Hv [Hlen Hnth]]].
    exists v. unfold add_vectors. repeat split; trivial.
    intros i Hi. apply Hnth. unfold k in Hi. lia.
Qed.

Lemma add_vectors_zip_witness :
  exists v,
    add_vectors [2; 3] [5; 7] sample_pub = Ok v /\
    List.length v = 2%nat /\
    forall i, (i < 2)%nat ->
      homomorphic_add sample_pub (nth i [2; 3] 0) (nth i [5; 7] 0)
      = Ok (nth i v 0).
Proof.
  apply (proj2 (add_vectors_zip sample_pub [2; 3] [5; 7])).
  simpl; lia.
Defined.

(** Vectors of different lengths are accepted and the longer one is
    cut: [add_vectors([2, 3], [5], pub)] returns [[10]]. *)
Lemma add_vectors_length_mismatch_accepted :
  List.length [2; 3] <> List.length [5] /\
  add_vectors [2; 3] [5] sample_pub = Ok [10].
Proof. split; [discriminate | reflexivity]. Qed.

(* ================================================================== *)
(** ** Winner selection *)
(* ================================================================== *)

Lemma max_fold_spec (t : list Z) : forall x,
  let M := fold_left (fun best y => if best <? y then y else best) t x in
  x <= M /\ (forall y, In y t -> y <= M) /\ In M (x :: t).
Proof.
  induction t as [| h t IH]; intros x; cbn [fold_left].
  - repeat split; [lia | intros y [] | now left].
  - destruct (IH (if x <? h then h else x)) as [H1 [H2 H3]].
    destruct (Z.ltb_spec x h) as [Hlt | Hge]; repeat split.
    + lia.
    + intros y [<- | Hy]; [lia | now apply H2].
    + destruct H3 as [H3 | H3]; [right; left; exact H3 | right; right; exact H3].
    + lia.
    + intros y [<- | Hy]; [lia | now apply H2].
    + destruct H3 as [H3 | H3]; [left; exact H3 | right; right; exact H3].
Qed.

Lemma index_spec (l : list Z) (x : Z) :
  In x l ->
  exists i, Py.index l x = Ok i /\ (i < List.length l)%nat /\
            nth i l 0 = x /\
            forall j, (j < i)%nat -> nth j l 0 <> x.
Proof.
  induction l as [| y t IH]; intros Hin; [destruct Hin |].
  cbn [Py.index]. destruct (Z.eqb_spec y x) as [-> | Hne].
  - exists O. simpl. repeat split; [lia | intros j Hj; lia].
  - destruct Hin as [E | Hin]; [contradiction |].
    destruct (IH Hin) as [i [Hi [Hlen [Hnth Hbefore]]]].
    exists (S i). rewrite Hi. cbn [bind]. simpl. repeat split; trivial.
    + lia.
    + intros [| j] Hj; [exact Hne | apply Hbefore; lia].
Qed.

(** C9. Winner selection: on a non-empty tally, [tally.index(max(tally))]
    is the position of a maximal entry, and every entry before it is
    strictly smaller, so among tied maxima the lowest index wins.
    [[2, 2]] and [[2, 1, 2, 1]] both give index 0. *)
Theorem winner_lowest_index_of_maximum :
  (forall tally, tally <> [] ->
     exists i, winner_index tally = Ok i /\
       (i < List.length tally)%nat /\
       (forall j, (j < List.length tally)%nat ->
          nth j tally 0 <= nth i tally 0) /\
       (forall j, (j < i)%nat -> nth j tally 0 < nth i tally 0))
  /\ winner_index [2; 2] = Ok 0%nat
  /\ winner_index [2; 1; 2; 1] = Ok 0%nat.
Proof.
  split; [| split; reflexivity].
  intros [| x t] Hne; [contradiction |].
  unfold winner_index, Py.max. cbn [bind].
  destruct (max_fold_spec t x) as [H1 [H2 H3]].
  set (M := fold_left (fun best y => if best <? y then y else best) t x) in *.
  destruct (index_spec (x :: t) M H3) as [i [Hi [Hlen [Hnth Hbefore]]]].
  assert (Hall : forall j, (j < List.length (x :: t))%nat ->
                           nth j (x :: t) 0 <= M).
  { intros j Hj. destruct (nth_In (x :: t) 0 Hj) as [<- | Hin];
      [exact H1 | now apply H2]. }
  exists i. rewrite Hnth. repeat split; trivial.
  intros j Hj. specialize (Hbefore j Hj).
  specialize (Hall j ltac:(lia)). lia.
Qed.

Lemma winner_lowest_index_of_maximum_witness :
  exists i, winner_index [2; 1; 2; 1] = Ok i /\
    (i < 4)%nat /\
    (forall j, (j < 4)%nat -> nth j [2; 1; 2; 1] 0 <= nth i [2; 1; 2; 1] 0) /\
    (forall j, (j < i)%nat -> nth j [2; 1; 2; 1] 0 < nth i [2; 1; 2; 1] 0).
Proof.
  apply (proj1 winner_lowest_index_of_maximum [2; 1; 2; 1]).
  discriminate.
Defined.

(* ================================================================== *)
(** ** Further properties: modular utilities *)
(* ================================================================== *)

(** X1. [lcm(a, b)] raises [ZeroDivisionError] when both arguments are
    zero; otherwise it returns a common multiple of [a] and [b] whose
    absolute value is the least common multiple, and the least common
    multiple itself when both are positive. *)
Theorem lcm_spec (a b : Z) :
  (a = 0 /\ b = 0 -> lcm a b = Raise ZeroDivisionError)
  /\ (a <> 0 \/ b <> 0 ->
      exists l, lcm a b = Ok l /\ (a | l) /\ (b | l) /\
                Z.abs l = Z.lcm a b /\
                (0 < a -> 0 < b -> l = Z.lcm a b)).
Proof.
  split.
  - intros [-> ->]. reflexivity.
  - intros Hnz.
    assert (Hg : Z.gcd a b <> 0).
    { intros E. apply Z.gcd_eq_0 in E. lia. }
    exists (a / Z.gcd a b * b).
    unfold lcm, Py.gcd. rewrite floordiv_nonzero by assumption.
    cbn [bind]. split; [reflexivity |].
    assert (Habs : Z.abs (a / Z.gcd a b * b) = Z.lcm a b).
    { unfold Z.lcm. now rewrite Z.gcd_div_swap. }
    repeat split.
    + rewrite Z.gcd_div_swap. apply Z.divide_factor_l.
    + apply Z.divide_factor_r.
    + exact Habs.
    + intros Ha Hb. rewrite <- Habs. symmetry. apply Z.abs_eq.
      pose proof (Z.gcd_nonneg a b).
      apply Z.mul_nonneg_nonneg; [apply Z.div_pos; lia | lia].
Qed.

Lemma lcm_spec_witness :
  exists l, lcm 100 102 = Ok l /\ (100 | l) /\ (102 | l) /\
            Z.abs l = Z.lcm 100 102 /\
            (0 < 100 -> 0 < 102 -> l = Z.lcm 100 102).
Proof. apply (proj2 (lcm_spec 100 102)). left. lia. Defined.

Lemma cong_abs_modulus (m a b : Z) : cong (Z.abs m) a b -> cong m a b.
Proof. unfold cong. now rewrite Z.divide_abs_l. Qed.

(** X2. [modInv(a, m)] raises its [ValueError] exactly when
    [gcd(a, m) <> 1]; whatever it returns is an inverse of [a] modulo
    [m]; and for a modulus above one it returns the inverse that lies
    in [0, m). *)
Theorem modInv_spec (a m : Z) :
  (modInv a m = Raise (ValueError "No inverse") <-> Z.gcd a m <> 1)
  /\ (forall x, modInv a m = Ok x -> (a * x) mod m = 1 mod m)
  /\ (Z.gcd a m = 1 -> 1 < m ->
      exists x, modInv a m = Ok x /\ 0 <= x < m /\ (a * x) mod m = 1).
Proof.
  split; [| split].
  - unfold modInv, Py.gcd.
    destruct (Z.eqb_spec (Z.gcd a m) 1) as [E | E]; cbn [negb].
    + split; [| contradiction].
      unfold Py.pow. destruct (m =? 0); [discriminate |].
      destruct (Z.abs m =? 1); [discriminate |]. cbn [Z.ltb Z.compare].
      destruct (Z.gcd a (Z.abs m) =? 1); discriminate.
    + split; [intros _; exact E | reflexivity].
  - intros x. unfold modInv, Py.gcd.
    destruct (Z.eqb_spec (Z.gcd a m) 1) as [E | E]; cbn [negb];
      [| discriminate].
    unfold Py.pow. destruct (Z.eqb_spec m 0) as [Hm0 | Hm0];
      [discriminate |].
    destruct (Z.eqb_spec (Z.abs m) 1) as [Hm1 | Hm1].
    + intros Hx. assert (x = 0) by congruence. subst x.
      rewrite Z.mul_0_r, Z.mod_0_l by assumption.
      assert (m = 1 \/ m = -1) as [-> | ->] by lia; reflexivity.
    + change (-1 <? 0) with true. cbv iota.
      rewrite Z.gcd_abs_r, E. change (1 =? 1) with true. cbv iota.
      change (- -1) with 1. rewrite Zpow_mod_correct by assumption.
      rewrite Z.pow_1_r. intros Hx.
      assert (Ex : x = Z.invmod a (Z.abs m) mod m) by congruence.
      rewrite Ex, Z.mul_mod_idemp_r by assumption.
      apply cong_mod_eq, cong_abs_modulus.
      pose proof (Z.invmod_coprime a (Z.abs m) ltac:(lia)
                    ltac:(unfold Z.coprime; now rewrite Z.gcd_abs_r)) as Hi.
      pose proof (cong_mod_l (Z.abs m) (Z.invmod a (Z.abs m) * a)) as Hc.
      rewrite Hi in Hc. apply cong_sym.
      now rewrite (Z.mul_comm a).
  - intros Hg Hm. exists (Z.invmod a m).
    rewrite modInv_coprime by assumption. split; [reflexivity |].
    split.
    + rewrite <- Z.mod_invmod. apply Z.mod_pos_bound. lia.
    + rewrite Z.mul_comm. apply Z.invmod_coprime; [lia | exact Hg].
Qed.

Lemma modInv_spec_witness :
  exists x, modInv 5100 10403 = Ok x /\ 0 <= x < 10403 /\
            (5100 * x) mod 10403 = 1.
Proof.
  apply (proj2 (proj2 (modInv_spec 5100 10403))).
  - vm_compute; reflexivity.
  - lia.
Defined.

Lemma getRandom_terminates (nn : Z) (draws : list Z) :
  1 < nn -> enough_draws nn draws = true ->
  exists r, getRandom nn draws = Ok r.
Proof.
  intros Hn. unfold enough_draws.
  induction draws as [| d rest IH]; cbn [existsb getRandom];
    [discriminate |].
  unfold Py.randrange. destruct (Z.leb_spec nn 1); [lia |].
  cbn [bind]. unfold Py.gcd, accepts at 1.
  destruct (Z.gcd (1 + d mod (nn - 1)) nn =? 1); cbn [orb].
  - intros _. eexists; reflexivity.
  - exact IH.
Qed.

Lemma getRandom_no_raise (nn : Z) (draws : list Z) (e : exn) :
  1 < nn -> getRandom nn draws <> Raise e.
Proof.
  intros Hn. induction draws as [| d rest IH]; cbn [getRandom];
    [discriminate |].
  unfold Py.randrange. destruct (Z.leb_spec nn 1); [lia |].
  cbn [bind]. destruct (Py.gcd _ nn =? 1); [discriminate | exact IH].
Qed.

(** X3. [getRandom(n)]: whatever it returns lies in [1, n-1] and is
    coprime to [n]; for [n <= 1] the first call of [randrange] raises
    [ValueError]; for [n > 1] it never raises, and it returns as soon as
    one of the draws is accepted. *)
Theorem getRandom_spec (nn : Z) (draws : list Z) :
  (forall r, getRandom nn draws = Ok r -> 1 <= r < nn /\ Z.gcd r nn = 1)
  /\ (nn <= 1 -> draws <> [] ->
      getRandom nn draws = Raise (ValueError "empty range for randrange()"))
  /\ (1 < nn -> forall e, getRandom nn draws <> Raise e)
  /\ (1 < nn -> enough_draws nn draws = true ->
      exists r, getRandom nn draws = Ok r).
Proof.
  split; [apply getRandom_coprime |]. split; [| split].
  - intros Hn Hne. destruct draws as [| d rest]; [contradiction |].
    cbn [getRandom]. unfold Py.randrange.
    destruct (Z.leb_spec nn 1); [reflexivity | lia].
  - intros Hn e. now apply getRandom_no_raise.
  - apply getRandom_terminates.
Qed.

Lemma getRandom_spec_witness :
  getRandom 1 [5] = Raise (ValueError "empty range for randrange()")
  /\ (exists r, getRandom 10403 [100; 7] = Ok r).
Proof.
  split.
  - apply (proj1 (proj2 (getRandom_spec 1 [5]))); [lia | discriminate].
  - apply (proj2 (proj2 (proj2 (getRandom_spec 10403 [100; 7])))).
    + lia.
    + vm_compute; reflexivity.
Defined.

(* ================================================================== *)
(** ** Further properties: the cipher *)
(* ================================================================== *)

Lemma encrypt_drawn_as_supplied (pub : PaillierPublicKey) (m r : Z)
    (draws : list Z) :
  getRandom (n pub) draws = Ok r ->
  paillier_encrypt pub m None draws = paillier_encrypt pub m (Some r) draws.
Proof.
  intros Hr. unfold paillier_encrypt.
  destruct (negb ((0 <=? m) && (m <? n pub))); [reflexivity |].
  now rewrite Hr.
Qed.

(** Encryption with a drawn randomizer under a generated key. *)
Lemma generated_encrypt_drawn (bits : Z) (d1 d2 : nat)
    (pub : PaillierPublicKey) (priv : PaillierPrivateKey)
    (m : Z) (draws : list Z) :
  generatePaillierKey bits d1 d2 = Ok (pub, priv) ->
  0 <= m < n pub -> enough_draws (n pub) draws = true ->
  exists c, paillier_encrypt pub m None draws = Ok c /\
            paillier_decrypt pub priv c = Ok m.
Proof.
  intros Hgen Hm Hd.
  destruct (generated_pub_shape _ _ _ _ _ Hgen) as [Hn [Hg Hsq]].
  destruct (getRandom_terminates _ _ Hn Hd) as [r Hr].
  destruct (encrypt_in_range pub m r draws Hsq Hm) as [c Hc].
  exists c. rewrite (encrypt_drawn_as_supplied pub m r draws Hr).
  split; [exact Hc |].
  apply generated_roundtrip_drawn with (bits := bits) (d1 := d1) (d2 := d2)
                                       (draws := draws); trivial.
  now rewrite (encrypt_drawn_as_supplied pub m r draws Hr).
Qed.

(** X4. Round trip with the default randomizer: under a generated key,
    [paillier_encrypt(pub, m)] with [m] in range returns a ciphertext as
    soon as one draw is accepted, and that ciphertext decrypts to [m];
    and whenever the call returns at all, what it returns decrypts to
    [m]. *)
Theorem encrypt_drawn_roundtrip (bits : Z) (d1 d2 : nat)
    (pub : PaillierPublicKey) (priv : PaillierPrivateKey)
    (m : Z) (draws : list Z) :
  generatePaillierKey bits d1 d2 = Ok (pub, priv) ->
  (0 <= m < n pub -> enough_draws (n pub) draws = true ->
   exists c, paillier_encrypt pub m None draws = Ok c /\
             paillier_decrypt pub priv c = Ok m)
  /\ (forall c, paillier_encrypt pub m None draws = Ok c ->
                paillier_decrypt pub priv c = Ok m).
Proof.
  intros Hgen. split.
  - now apply generated_encrypt_drawn with (bits := bits) (d1 := d1)
                                           (d2 := d2).
  - intros c. now apply generated_roundtrip_drawn
                  with (bits := bits) (d1 := d1) (d2 := d2).
Qed.

Lemma encrypt_drawn_roundtrip_witness :
  exists c, paillier_encrypt sample_pub 42 None [100; 7] = Ok c /\
            paillier_decrypt sample_pub sample_priv c = Ok 42.
Proof.
  apply (proj1 (encrypt_drawn_roundtrip 512 0 0 sample_pub sample_priv
                  42 [100; 7] ltac:(vm_compute; reflexivity))).
  - simpl; lia.
  - vm_compute; reflexivity.
Defined.

Lemma decrypt_in_range (pub : PaillierPublicKey)
    (priv : PaillierPrivateKey) (c : Z) :
  n_sq pub = n pub * n pub -> 1 < n pub -> 0 <= lambda_ priv ->
  exists m, paillier_decrypt pub priv c = Ok m /\ 0 <= m < n pub.
Proof.
  intros Hsq Hn Hl. unfold paillier_decrypt.
  rewrite pow_nonneg by nia. cbn [bind].
  rewrite floordiv_nonzero by lia. cbn [bind].
  rewrite modulo_nonzero by lia.
  eexists. split; [reflexivity |]. apply Z.mod_pos_bound. lia.
Qed.

(** X5. Decryption makes no validity check: for a key with [n > 1] and a
    non-negative private exponent it never raises, whatever integer it
    is given, and its result lies in [0, n). *)
Theorem decrypt_always_in_range (pub : PaillierPublicKey)
    (priv : PaillierPrivateKey) (c : Z) :
  n_sq pub = n pub * n pub -> 1 < n pub -> 0 <= lambda_ priv ->
  exists m, paillier_decrypt pub priv c = Ok m /\ 0 <= m < n pub.
Proof. apply decrypt_in_range. Qed.

Lemma decrypt_always_in_range_witness :
  exists m, paillier_decrypt sample_pub sample_priv (-17) = Ok m /\
            0 <= m < 10403.
Proof.
  apply (decrypt_always_in_range sample_pub sample_priv (-17)).
  - reflexivity.
  - simpl; lia.
  - simpl; lia.
Defined.

(** X6. A supplied randomizer is not checked: with [r = 0] every
    plaintext in range is encrypted to the ciphertext 0, so the
    plaintext is lost. *)
Theorem encrypt_zero_randomizer (pub : PaillierPublicKey) (m : Z)
    (draws : list Z) :
  n_sq pub = n pub * n pub -> 0 <= m < n pub ->
  paillier_encrypt pub m (Some 0) draws = Ok 0.
Proof.
  intros Hsq Hm.
  destruct (Z.eq_dec (n pub) 1) as [E1 | E1].
  - unfold paillier_encrypt.
    destruct (Z.leb_spec 0 m); [| lia].
    destruct (Z.ltb_spec m (n pub)); [| lia]. cbn [andb negb bind].
    rewrite Hsq, E1. reflexivity.
  - rewrite encrypt_value by (trivial; lia). f_equal.
    rewrite (Z.pow_0_l (n pub)) by lia.
    rewrite (Z.mod_0_l (n_sq pub)) by nia.
    rewrite Z.mul_0_r. apply Z.mod_0_l. nia.
Qed.

Lemma encrypt_zero_randomizer_witness :
  paillier_encrypt sample_pub 42 (Some 0) [] = Ok 0.
Proof.
  apply (encrypt_zero_randomizer sample_pub 42 []).
  - reflexivity.
  - simpl; lia.
Defined.

(** X7. Under a generated key two different plaintexts never share a
    ciphertext, whichever randomizers coprime to [n] are used. *)
Theorem encrypt_injective_in_plaintext (bits : Z) (d1 d2 : nat)
    (pub : PaillierPublicKey) (priv : PaillierPrivateKey)
    (m1 m2 r1 r2 c : Z) (draws1 draws2 : list Z) :
  generatePaillierKey bits d1 d2 = Ok (pub, priv) ->
  0 <= m1 < n pub -> 0 <= m2 < n pub ->
  Z.gcd r1 (n pub) = 1 -> Z.gcd r2 (n pub) = 1 ->
  paillier_encrypt pub m1 (Some r1) draws1 = Ok c ->
  paillier_encrypt pub m2 (Some r2) draws2 = Ok c ->
  m1 = m2.
Proof.
  intros Hgen H1 H2 Hr1 Hr2 E1 E2.
  pose proof (generated_roundtrip bits d1 d2 pub priv m1 r1 draws1
                Hgen H1 Hr1) as R1.
  pose proof (generated_roundtrip bits d1 d2 pub priv m2 r2 draws2
                Hgen H2 Hr2) as R2.
  rewrite E1 in R1. rewrite E2 in R2. cbn [bind] in R1, R2.
  congruence.
Qed.

Lemma encrypt_injective_in_plaintext_witness : 42 = 42.
Proof.
  apply (encrypt_injective_in_plaintext 512 0 0 sample_pub sample_priv
           42 42 2 10405 6686915 [] []).
  - vm_compute; reflexivity.
  - simpl; lia.
  - simpl; lia.
  - vm_compute; reflexivity.
  - vm_compute; reflexivity.
  - vm_compute; reflexivity.
  - vm_compute; reflexivity.
Defined.

(* ================================================================== *)
(** ** Ciphertexts of a given plaintext *)
(* ================================================================== *)

Lemma encrypts_of_encrypt (pub : PaillierPublicKey) (m r c : Z)
    (draws : list Z) :
  n_sq pub = n pub * n pub -> 1 < n pub ->
  0 <= m < n pub -> Z.gcd r (n pub) = 1 ->
  paillier_encrypt pub m (Some r) draws = Ok c -> encrypts pub m c.
Proof.
  intros Hsq Hn Hm Hr Hc. rewrite encrypt_value in Hc by assumption.
  assert (E : c = (g pub ^ m mod n_sq pub * (r ^ n pub mod n_sq pub))
                  mod n_sq pub) by congruence.
  exists r. split; [exact Hr |]. rewrite E. apply encrypt_cong.
Qed.

Lemma encrypts_of_encrypt_drawn (pub : PaillierPublicKey) (m c : Z)
    (draws : list Z) :
  n_sq pub = n pub * n pub -> 1 < n pub ->
  paillier_encrypt pub m None draws = Ok c ->
  0 <= m < n pub /\ encrypts pub m c.
Proof.
  intros Hsq Hn Hc.
  assert (Hm : 0 <= m < n pub).
  { destruct (Z.le_gt_cases 0 m); destruct (Z.lt_ge_cases m (n pub));
      try lia;
      rewrite encrypt_out_of_range in Hc by lia; discriminate. }
  split; [exact Hm |].
  assert (Hr : exists r, getRandom (n pub) draws = Ok r).
  { revert Hc. unfold paillier_encrypt.
    destruct (Z.leb_spec 0 m); [| lia].
    destruct (Z.ltb_spec m (n pub)); [| lia]. cbn [andb negb].
    destruct (getRandom (n pub) draws) as [r | e | ]; cbn [bind];
      try discriminate.
    intros _. now exists r. }
  destruct Hr as [r Hr].
  rewrite (encrypt_drawn_as_supplied pub m r draws Hr) in Hc.
  apply getRandom_coprime in Hr. destruct Hr as [_ Hr].
  now apply encrypts_of_encrypt with (r := r) (draws := draws).
Qed.

Lemma encrypts_mul (pub : PaillierPublicKey) (a b c1 c2 : Z) :
  0 <= a -> 0 <= b ->
  encrypts pub a c1 -> encrypts pub b c2 -> encrypts pub (a + b) (c1 * c2).
Proof.
  intros Ha Hb [s1 [Hs1 H1]] [s2 [Hs2 H2]].
  exists (s1 * s2). split; [now apply Z.coprime_mul_l |].
  rewrite Z.pow_add_r by assumption. rewrite Z.pow_mul_l.
  replace (g pub ^ a * g pub ^ b * (s1 ^ n pub * s2 ^ n pub))
    with ((g pub ^ a * s1 ^ n pub) * (g pub ^ b * s2 ^ n pub)) by ring.
  now apply cong_mul.
Qed.

Lemma encrypts_mod (pub : PaillierPublicKey) (k c : Z) :
  encrypts pub k c -> encrypts pub k (c mod n_sq pub).
Proof.
  intros [s [Hs H]]. exists s. split; [exact Hs |].
  eapply cong_trans; [apply cong_mod_l | exact H].
Qed.

Lemma encrypts_one (pub : PaillierPublicKey) :
  0 <= n pub -> encrypts pub 0 1.
Proof.
  intros Hn. exists 1. split; [apply Z.gcd_1_l |].
  rewrite Z.pow_0_r, Z.pow_1_l by assumption. apply cong_refl.
Qed.

Lemma encrypts_product (pub : PaillierPublicKey) (ks cs : list Z) :
  0 <= n pub -> Forall (fun k => 0 <= k) ks ->
  Forall2 (encrypts pub) ks cs -> encrypts pub (total ks) (product cs).
Proof.
  intros Hn Hpos HF. induction HF as [| k c ks cs Hkc _ IH].
  - now apply encrypts_one.
  - inversion Hpos as [| ? ? Hk Hks]; subst.
    change (total (k :: ks)) with (k + total ks).
    change (product (c :: cs)) with (c * product cs).
    apply encrypts_mul; auto.
    clear -Hks. induction Hks; unfold total in *; simpl; lia.
Qed.

Lemma generated_decrypt_encrypts (bits : Z) (d1 d2 : nat)
    (pub : PaillierPublicKey) (priv : PaillierPrivateKey) (k c : Z) :
  generatePaillierKey bits d1 d2 = Ok (pub, priv) ->
  0 <= k -> encrypts pub k c ->
  paillier_decrypt pub priv c = Ok (k mod n pub).
Proof.
  intros Hgen Hk [s [Hs Hc]].
  now apply generated_decrypt_coset with (bits := bits) (d1 := d1)
                                         (d2 := d2) (s := s).
Qed.

Lemma total_nonneg (ks : list Z) :
  Forall (fun k => 0 <= k) ks -> 0 <= total ks.
Proof.
  induction 1; unfold total in *; simpl; lia.
Qed.

(** Decrypting the aggregate of ciphertexts of [ks]. *)
Lemma generated_decrypt_aggregate (bits : Z) (d1 d2 : nat)
    (pub : PaillierPublicKey) (priv : PaillierPrivateKey) (ks cs : list Z) :
  generatePaillierKey bits d1 d2 = Ok (pub, priv) ->
  Forall (fun k => 0 <= k) ks -> Forall2 (encrypts pub) ks cs ->
  (agg <- homomorphic_add_many pub cs ;; paillier_decrypt pub priv agg)
  = Ok (total ks mod n pub).
Proof.
  intros Hgen Hpos HF.
  destruct (generated_pub_shape _ _ _ _ _ Hgen) as [Hn [Hg Hsq]].
  rewrite add_many_value by nia. cbn [bind].
  apply generated_decrypt_encrypts with (bits := bits) (d1 := d1) (d2 := d2);
    trivial.
  - now apply total_nonneg.
  - apply encrypts_mod, encrypts_product; trivial. lia.
Qed.

(** X8. Homomorphic tally: under a generated key, encrypting the
    plaintexts of a list (each in range, each with a randomizer coprime
    to [n]), aggregating with [homomorphic_add_many] and decrypting
    gives the sum of the plaintexts modulo [n]. *)
Theorem aggregate_decrypts_to_sum (bits : Z) (d1 d2 : nat)
    (pub : PaillierPublicKey) (priv : PaillierPrivateKey)
    (mrs : list (Z * Z)) :
  generatePaillierKey bits d1 d2 = Ok (pub, priv) ->
  Forall (fun mr => 0 <= fst mr < n pub /\ Z.gcd (snd mr) (n pub) = 1) mrs ->
  (cs <- Py.comprehension
           (fun mr => paillier_encrypt pub (fst mr) (Some (snd mr)) []) mrs ;;
   agg <- homomorphic_add_many pub cs ;;
   paillier_decrypt pub priv agg)
  = Ok (total (map fst mrs) mod n pub).
Proof.
  intros Hgen Hall.
  destruct (generated_pub_shape _ _ _ _ _ Hgen) as [Hn [Hg Hsq]].
  assert (Henc : exists cs,
    Py.comprehension
      (fun mr => paillier_encrypt pub (fst mr) (Some (snd mr)) []) mrs = Ok cs
    /\ Forall2 (encrypts pub) (map fst mrs) cs).
  { induction Hall as [| [m r] rest [Hm Hr] _ IH]; cbn [fst snd] in *.
    - exists []. split; [reflexivity | constructor].
    - destruct IH as [cs [Hcs HF]].
      destruct (encrypt_in_range pub m r [] Hsq Hm) as [c Hc].
      exists (c :: cs). cbn [Py.comprehension map fst snd].
      rewrite Hc. cbn [bind]. rewrite Hcs. cbn [bind].
      split; [reflexivity |]. constructor; [| exact HF].
      now apply encrypts_of_encrypt with (r := r) (draws := []). }
  destruct Henc as [cs [Hcs HF]]. rewrite Hcs. cbn [bind].
  apply generated_decrypt_aggregate with (bits := bits) (d1 := d1) (d2 := d2);
    trivial.
  clear -Hall. induction Hall as [| mr rest [Hm _] _ IH]; constructor;
    [lia | exact IH].
Qed.

Lemma aggregate_decrypts_to_sum_witness :
  (cs <- Py.comprehension
           (fun mr => paillier_encrypt sample_pub (fst mr) (Some (snd mr)) [])
           [(1, 2); (0, 3); (1, 5)] ;;
   agg <- homomorphic_add_many sample_pub cs ;;
   paillier_decrypt sample_pub sample_priv agg)
  = Ok (total (map fst [(1, 2); (0, 3); (1, 5)]) mod 10403).
Proof.
  apply (aggregate_decrypts_to_sum 512 0 0 sample_pub sample_priv
           [(1, 2); (0, 3); (1, 5)]).
  - vm_compute; reflexivity.
  - repeat constructor; cbn [fst snd]; try (simpl; lia);
      vm_compute; reflexivity.
Defined.

(* ================================================================== *)
(** ** Further properties: encrypted vectors and elections *)
(* ================================================================== *)

Lemma enough_for_vector_cons (nn : Z) (k : nat) (draws : list (list Z)) :
  enough_for_vector nn (S k) draws = true ->
  enough_draws nn (hd [] draws) = true /\
  enough_for_vector nn k (tl draws) = true.
Proof.
  unfold enough_for_vector. intros H. apply andb_true_iff in H.
  destruct H as [Hlen Hall]. apply Nat.leb_le in Hlen.
  destruct draws as [| ds rest]; simpl in Hlen; [lia |].
  cbn [forallb] in Hall. apply andb_true_iff in Hall.
  destruct Hall as [Hd Hrest]. cbn [hd tl]. split; [exact Hd |].
  apply andb_true_iff. split; [apply Nat.leb_le; lia | exact Hrest].
Qed.

(** Whatever [encrypt_vector] returns has an encryption of every entry,
    and every entry was in range. *)
Lemma encrypt_vector_inv (pub : PaillierPublicKey) (vec : list Z) :
  n_sq pub = n pub * n pub -> 1 < n pub ->
  forall draws cs, encrypt_vector vec pub draws = Ok cs ->
  Forall (fun m => 0 <= m < n pub) vec /\ Forall2 (encrypts pub) vec cs.
Proof.
  intros Hsq Hn. induction vec as [| m rest IH]; intros draws cs;
    cbn [encrypt_vector].
  - intros H. assert (cs = []) by congruence. subst. split; constructor.
  - destruct (paillier_encrypt pub m None (hd [] draws)) as [c | e | ] eqn:Ec;
      cbn [bind]; try discriminate.
    destruct (encrypt_vector rest pub (tl draws)) as [cs' | e | ] eqn:Er;
      cbn [bind]; try discriminate.
    intros H. assert (cs = c :: cs') by congruence. subst.
    destruct (encrypts_of_encrypt_drawn pub m c _ Hsq Hn Ec) as [Hm Hc].
    destruct (IH _ _ Er) as [Hall HF].
    split; constructor; assumption.
Qed.

(** With enough draws, a vector of plaintexts in range is encrypted. *)
Lemma encrypt_vector_ok (pub : PaillierPublicKey) (vec : list Z) :
  n_sq pub = n pub * n pub -> 1 < n pub ->
  Forall (fun m => 0 <= m < n pub) vec ->
  forall draws,
  enough_for_vector (n pub) (List.length vec) draws = true ->
  exists cs, encrypt_vector vec pub draws = Ok cs.
Proof.
  intros Hsq Hn Hall. induction Hall as [| m rest Hm _ IH]; intros draws Hd.
  - exists []. reflexivity.
  - cbn [List.length] in Hd. apply enough_for_vector_cons in Hd.
    destruct Hd as [Hd1 Hd2].
    destruct (getRandom_terminates _ _ Hn Hd1) as [r Hr].
    destruct (encrypt_in_range pub m r (hd [] draws) Hsq Hm) as [c Hc].
    destruct (IH _ Hd2) as [cs Hcs].
    exists (c :: cs). cbn [encrypt_vector].
    rewrite (encrypt_drawn_as_supplied pub m r _ Hr), Hc. cbn [bind].
    rewrite Hcs. reflexivity.
Qed.

Lemma decrypt_vector_encrypts (bits : Z) (d1 d2 : nat)
    (pub : PaillierPublicKey) (priv : PaillierPrivateKey) (ks cs : list Z) :
  generatePaillierKey bits d1 d2 = Ok (pub, priv) ->
  Forall (fun k => 0 <= k) ks -> Forall2 (encrypts pub) ks cs ->
  decrypt_vector cs pub priv = Ok (map (fun k => k mod n pub) ks).
Proof.
  intros Hgen Hpos HF. unfold decrypt_vector.
  induction HF as [| k c ks cs Hkc _ IH]; [reflexivity |].
  inversion Hpos as [| ? ? Hk Hks]; subst.
  cbn [Py.comprehension map].
  rewrite (generated_decrypt_encrypts bits d1 d2 pub priv k c Hgen Hk Hkc).
  cbn [bind]. now rewrite (IH Hks).
Qed.

Lemma map_mod_in_range (nn : Z) (vec : list Z) :
  Forall (fun m => 0 <= m < nn) vec -> map (fun k => k mod nn) vec = vec.
Proof.
  induction 1 as [| m rest Hm _ IH]; [reflexivity |].
  cbn [map]. now rewrite IH, Z.mod_small.
Qed.

Lemma in_range_nonneg (nn : Z) (vec : list Z) :
  Forall (fun m => 0 <= m < nn) vec -> Forall (fun k => 0 <= k) vec.
Proof. induction 1; constructor; [lia | assumption]. Qed.

(** X9. Vector round trip: under a generated key, whatever
    [encrypt_vector] returns decrypts with [decrypt_vector] to the
    vector it was given; and it does return when every entry is in
    range and every call has an accepted draw. *)
Theorem vector_roundtrip (bits : Z) (d1 d2 : nat)
    (pub : PaillierPublicKey) (priv : PaillierPrivateKey)
    (vec : list Z) (draws : list (list Z)) :
  generatePaillierKey bits d1 d2 = Ok (pub, priv) ->
  (forall cs, encrypt_vector vec pub draws = Ok cs ->
              List.length cs = List.length vec /\
              decrypt_vector cs pub priv = Ok vec)
  /\ (Forall (fun m => 0 <= m < n pub) vec ->
      enough_for_vector (n pub) (List.length vec) draws = true ->
      exists cs, encrypt_vector vec pub draws = Ok cs /\
                 decrypt_vector cs pub priv = Ok vec).
Proof.
  intros Hgen.
  destruct (generated_pub_shape _ _ _ _ _ Hgen) as [Hn [Hg Hsq]].
  assert (Hinv : forall cs, encrypt_vector vec pub draws = Ok cs ->
                 List.length cs = List.length vec /\
                 decrypt_vector cs pub priv = Ok vec).
  { intros cs Hcs.
    destruct (encrypt_vector_inv pub vec Hsq Hn _ _ Hcs) as [Hall HF].
    split; [symmetry; eapply Forall2_length; eassumption |].
    rewrite (decrypt_vector_encrypts bits d1 d2 pub priv vec cs Hgen);
      trivial.
    - now rewrite map_mod_in_range.
    - eapply in_range_nonneg; eassumption. }
  split; [exact Hinv |].
  intros Hall Hd.
  destruct (encrypt_vector_ok pub vec Hsq Hn Hall draws Hd) as [cs Hcs].
  exists cs. split; [exact Hcs | now apply Hinv].
Qed.

Lemma vector_roundtrip_witness :
  exists cs, encrypt_vector [0; 1; 0; 0] sample_pub [[3]; [4]; [5]; [6]]
             = Ok cs /\
             decrypt_vector cs sample_pub sample_priv = Ok [0; 1; 0; 0].
Proof.
  apply (proj2 (vector_roundtrip 512 0 0 sample_pub sample_priv
                  [0; 1; 0; 0] [[3]; [4]; [5]; [6]]
                  ltac:(vm_compute; reflexivity))).
  - repeat constructor; simpl; lia.
  - vm_compute; reflexivity.
Defined.

Lemma add_vectors_encrypts (pub : PaillierPublicKey) :
  n_sq pub <> 0 ->
  forall ks cs, Forall2 (encrypts pub) ks cs ->
  forall es ds, Forall2 (encrypts pub) es ds ->
  Forall (fun k => 0 <= k) ks -> Forall (fun k => 0 <= k) es ->
  exists v, add_vectors cs ds pub = Ok v /\
            Forall2 (encrypts pub)
                    (map (fun ab => fst ab + snd ab) (combine ks es)) v.
Proof.
  intros Hsq ks cs HF. unfold add_vectors.
  induction HF as [| k c ks cs Hkc _ IH]; intros es ds HG Hks Hes.
  - exists []. split; [reflexivity | constructor].
  - destruct HG as [| e d es ds Hed HG].
    + exists []. split; [reflexivity | constructor].
    + inversion Hks as [| ? ? Hk Hks']; subst.
      inversion Hes as [| ? ? He Hes']; subst.
      destruct (IH es ds HG Hks' Hes') as [v [Hv HFv]].
      exists ((c * d) mod n_sq pub :: v).
      cbn [combine Py.comprehension map fst snd].
      unfold homomorphic_add at 1. rewrite modulo_nonzero by assumption.
      cbn [bind]. rewrite Hv. cbn [bind]. split; [reflexivity |].
      constructor; [| exact HFv].
      now apply encrypts_mod, encrypts_mul.
Qed.

(** X10. Vector homomorphism: under a generated key, the component-wise
    sum of two encrypted vectors decrypts to the component-wise sum of
    the plaintext vectors, modulo [n], over the positions both have. *)
Theorem vector_homomorphism (bits : Z) (d1 d2 : nat)
    (pub : PaillierPublicKey) (priv : PaillierPrivateKey)
    (u v cu cv : list Z) (draws_u draws_v : list (list Z)) :
  generatePaillierKey bits d1 d2 = Ok (pub, priv) ->
  encrypt_vector u pub draws_u = Ok cu ->
  encrypt_vector v pub draws_v = Ok cv ->
  (s <- add_vectors cu cv pub ;; decrypt_vector s pub priv)
  = Ok (map (fun ab => (fst ab + snd ab) mod n pub) (combine u v)).
Proof.
  intros Hgen Hu Hv.
  destruct (generated_pub_shape _ _ _ _ _ Hgen) as [Hn [Hg Hsq]].
  destruct (encrypt_vector_inv pub u Hsq Hn _ _ Hu) as [Hru HFu].
  destruct (encrypt_vector_inv pub v Hsq Hn _ _ Hv) as [Hrv HFv].
  apply in_range_nonneg in Hru. apply in_range_nonneg in Hrv.
  destruct (add_vectors_encrypts pub ltac:(nia) u cu HFu v cv HFv Hru Hrv)
    as [s [Hs HFs]].
  rewrite Hs. cbn [bind].
  rewrite (decrypt_vector_encrypts bits d1 d2 pub priv
             (map (fun ab => fst ab + snd ab) (combine u v)) s Hgen);
    [now rewrite map_map | | exact HFs].
  clear -Hru Hrv. revert v Hrv.
  induction Hru as [| a u Ha _ IH]; intros v Hrv; [constructor |].
  destruct Hrv as [| b v Hb Hrv]; [constructor |].
  cbn [combine map fst snd]. constructor; [lia | now apply IH].
Qed.

Lemma vector_homomorphism_witness :
  (s <- add_vectors [57717827; 57245814] [43064798; 23879167] sample_pub ;;
   decrypt_vector s sample_pub sample_priv)
  = Ok (map (fun ab => (fst ab + snd ab) mod 10403)
            (combine [1; 0] [0; 1])).
Proof.
  apply (vector_homomorphism 512 0 0 sample_pub sample_priv
           [1; 0] [0; 1] _ _ [[3]; [4]] [[5]; [6]]).
  - vm_compute; reflexivity.
  - vm_compute; reflexivity.
  - vm_compute; reflexivity.
Defined.

Lemma encrypt_votes_loop_vector (pub : PaillierPublicKey) (votes : list Z) :
  forall ciphertexts draws,
  encrypt_votes_loop pub ciphertexts votes draws
  = (cs <- encrypt_vector votes pub draws ;; Ok (ciphertexts ++ cs)).
Proof.
  induction votes as [| v rest IH]; intros acc draws;
    cbn [encrypt_votes_loop encrypt_vector bind].
  - now rewrite app_nil_r.
  - destruct (paillier_encrypt pub v None (hd [] draws)) as [c | e | ];
      cbn [bind]; trivial.
    rewrite IH.
    destruct (encrypt_vector rest pub (tl draws)) as [cs | e | ];
      cbn [bind]; trivial.
    now rewrite <- app_assoc.
Qed.

Lemma small_primes_product_bounds (p q : Z) :
  In p small_primes -> In q small_primes -> p <> q ->
  10403 <= p * q <= 20711.
Proof.
  intros Hp Hq Hne.
  assert (H : forallb (fun x => forallb (fun y =>
                 (x =? y) || ((10403 <=? x * y) && (x * y <=? 20711)))
                 small_primes) small_primes = true)
    by (vm_compute; reflexivity).
  rewrite forallb_forall in H. specialize (H p Hp).
  rewrite forallb_forall in H. specialize (H q Hq).
  apply orb_true_iff in H. destruct H as [H | H].
  - apply Z.eqb_eq in H. contradiction.
  - apply andb_true_iff in H. destruct H as [H1 H2].
    apply Z.leb_le in H1. apply Z.leb_le in H2. lia.
Qed.

Lemma generated_modulus_bounds (bits : Z) (d1 d2 : nat)
    (pub : PaillierPublicKey) (priv : PaillierPrivateKey) :
  generatePaillierKey bits d1 d2 = Ok (pub, priv) ->
  10403 <= n pub <= 20711.
Proof.
  intros Hgen.
  destruct (keygen_result bits d1 d2) as [p [q [Hp [Hq [Hne [_ [_ E]]]]]]].
  rewrite E in Hgen. injection Hgen as <- <-.
  now apply small_primes_product_bounds.
Qed.

Lemma total_bits (votes : list Z) :
  Forall (fun v => v = 0 \/ v = 1) votes ->
  total votes = Z.of_nat (count_occ Z.eq_dec votes 1) /\
  0 <= total votes <= Z.of_nat (List.length votes).
Proof.
  induction 1 as [| v rest Hv _ [IH1 IH2]]; [split; simpl; lia |].
  change (total (v :: rest)) with (v + total rest).
  cbn [count_occ List.length].
  destruct Hv as [-> | ->].
  - destruct (Z.eq_dec 0 1); [lia |]. lia.
  - destruct (Z.eq_dec 1 1); [| lia]. lia.
Qed.

(** The value of [run_simple_election] once the key is known. *)
Lemma run_simple_election_value (votes : list Z) (d1 d2 : nat)
    (draws : list (list Z))
    (pub : PaillierPublicKey) (priv : PaillierPrivateKey) (cs : list Z) :
  generatePaillierKey 512 d1 d2 = Ok (pub, priv) ->
  encrypt_vector votes pub draws = Ok cs ->
  run_simple_election votes d1 d2 draws = Ok (total votes mod n pub).
Proof.
  intros Hgen Hcs.
  destruct (generated_pub_shape _ _ _ _ _ Hgen) as [Hn [Hg Hsq]].
  destruct (encrypt_vector_inv pub votes Hsq Hn _ _ Hcs) as [Hall HF].
  unfold run_simple_election. rewrite Hgen. cbn [bind].
  rewrite encrypt_votes_loop_vector, Hcs. cbn [bind app].
  pose proof (generated_decrypt_aggregate 512 d1 d2 pub priv votes cs
                Hgen (in_range_nonneg _ _ Hall) HF) as Hagg.
  destruct (homomorphic_add_many pub cs) as [agg | e | ]; cbn [bind] in *;
    try discriminate.
  now rewrite Hagg.
Qed.

(** X11. [run_simple_election]: with every vote in [0, n) and enough
    draws it returns the sum of the votes modulo [n]; for fewer than
    10403 votes that are all 0 or 1 this is the number of 1 votes; and
    it never returns a tally when some vote is out of range. *)
Theorem simple_election_tally (votes : list Z) (d1 d2 : nat)
    (draws : list (list Z))
    (pub : PaillierPublicKey) (priv : PaillierPrivateKey) :
  generatePaillierKey 512 d1 d2 = Ok (pub, priv) ->
  (Forall (fun v => 0 <= v < n pub) votes ->
   enough_for_vector (n pub) (List.length votes) draws = true ->
   run_simple_election votes d1 d2 draws = Ok (total votes mod n pub))
  /\ (Forall (fun v => v = 0 \/ v = 1) votes ->
      Z.of_nat (List.length votes) < 10403 ->
      enough_for_vector (n pub) (List.length votes) draws = true ->
      run_simple_election votes d1 d2 draws
      = Ok (Z.of_nat (count_occ Z.eq_dec votes 1)))
  /\ (forall t, run_simple_election votes d1 d2 draws = Ok t ->
      Forall (fun v => 0 <= v < n pub) votes /\ t = total votes mod n pub).
Proof.
  intros Hgen.
  destruct (generated_pub_shape _ _ _ _ _ Hgen) as [Hn [Hg Hsq]].
  pose proof (generated_modulus_bounds _ _ _ _ _ Hgen) as Hb.
  assert (H1 : Forall (fun v => 0 <= v < n pub) votes ->
               enough_for_vector (n pub) (List.length votes) draws = true ->
               run_simple_election votes d1 d2 draws
               = Ok (total votes mod n pub)).
  { intros Hall Hd.
    destruct (encrypt_vector_ok pub votes Hsq Hn Hall draws Hd) as [cs Hcs].
    now apply run_simple_election_value with (priv := priv) (cs := cs). }
  split; [exact H1 |]. split.
  - intros Hbits Hlen Hd.
    destruct (total_bits votes Hbits) as [Ht Hr].
    rewrite H1; trivial.
    + rewrite Z.mod_small by lia. now rewrite Ht.
    + clear -Hbits Hb. induction Hbits as [| v rest Hv _ IH];
        constructor; [lia | exact IH].
  - intros t Ht.
    assert (Hcs : exists cs, encrypt_vector votes pub draws = Ok cs).
    { revert Ht. unfold run_simple_election. rewrite Hgen. cbn [bind].
      rewrite encrypt_votes_loop_vector.
      destruct (encrypt_vector votes pub draws) as [cs | e | ];
        cbn [bind]; try discriminate.
      intros _. now exists cs. }
    destruct Hcs as [cs Hcs].
    destruct (encrypt_vector_inv pub votes Hsq Hn _ _ Hcs) as [Hall _].
    split; [exact Hall |].
    rewrite (run_simple_election_value votes d1 d2 draws pub priv cs Hgen Hcs)
      in Ht.
    congruence.
Qed.

Lemma simple_election_tally_witness :
  run_simple_election [1; 0; 1; 1; 0; 1] 0 0 [[3]; [4]; [5]; [6]; [7]; [8]]
  = Ok (Z.of_nat (count_occ Z.eq_dec [1; 0; 1; 1; 0; 1] 1)).
Proof.
  apply (proj1 (proj2 (simple_election_tally [1; 0; 1; 1; 0; 1] 0 0
                         [[3]; [4]; [5]; [6]; [7]; [8]]
                         sample_pub sample_priv
                         ltac:(vm_compute; reflexivity)))).
  - repeat (apply Forall_cons;
            [first [left; reflexivity | right; reflexivity] |]).
    apply Forall_nil.
  - simpl; lia.
  - vm_compute; reflexivity.
Defined.

(** *** The multi-candidate tally *)

Lemma enough_for_election_cons (nn : Z) (k voters : nat)
    (draws : list (list (list Z))) :
  enough_for_election nn k (S voters) draws = true ->
  enough_for_vector nn k (hd [] draws) = true /\
  enough_for_election nn k voters (tl draws) = true.
Proof.
  unfold enough_for_election. intros H. apply andb_true_iff in H.
  destruct H as [Hlen Hall]. apply Nat.leb_le in Hlen.
  destruct draws as [| ds rest]; simpl in Hlen; [lia |].
  cbn [forallb] in Hall. apply andb_true_iff in Hall.
  destruct Hall as [Hd Hrest]. cbn [hd tl]. split; [exact Hd |].
  apply andb_true_iff. split; [apply Nat.leb_le; lia | exact Hrest].
Qed.

Lemma nth_map_seq (f : nat -> Z) (k j : nat) :
  (j < k)%nat -> nth j (map f (seq 0 k)) 0 = f j.
Proof.
  intros Hj.
  rewrite nth_indep with (d' := f 0%nat)
    by (now rewrite length_map, length_seq).
  rewrite map_nth, seq_nth by exact Hj. reflexivity.
Qed.

(** The one-hot vector as a list. *)
Lemma encode_vote_value (choice num : Z) :
  0 <= choice < num ->
  encode_vote choice num
  = Ok (map (fun j => if Z.of_nat j =? choice then 1 else 0)
            (seq 0 (Z.to_nat num))).
Proof.
  intros H. unfold encode_vote, Py.list_mul, Py.setitem.
  rewrite repeat_length, Z2Nat.id by lia.
  destruct (Z.ltb_spec choice 0); [lia |].
  destruct (Z.ltb_spec choice 0); [lia |].
  destruct (Z.leb_spec num choice); [lia |]. cbn [orb]. f_equal.
  destruct (setitem_zeros (Z.to_nat num) (Z.to_nat choice) ltac:(lia))
    as [Hlen Hnth].
  rewrite Z2Nat.id in Hnth by lia.
  apply nth_ext with (d := 0) (d' := 0).
  - rewrite length_map, length_seq. lia.
  - intros j Hj. rewrite (Hnth j Hj).
    rewrite update_length, repeat_length in Hj.
    now rewrite nth_map_seq by exact Hj.
Qed.

Lemma counts_cons (choice : Z) (rest : list Z) (num : Z) :
  counts (choice :: rest) num
  = map (fun ab => fst ab + snd ab)
        (combine (map (fun j => if Z.of_nat j =? choice then 1 else 0)
                      (seq 0 (Z.to_nat num)))
                 (counts rest num)).
Proof.
  unfold counts. induction (seq 0 (Z.to_nat num)) as [| j l IH];
    [reflexivity |].
  cbn [map combine fst snd count_occ]. rewrite <- IH. f_equal.
  destruct (Z.eq_dec choice (Z.of_nat j)) as [E | E];
    destruct (Z.eqb_spec (Z.of_nat j) choice); lia.
Qed.

Lemma vadd_assoc (a b c : list Z) :
  map (fun ab => fst ab + snd ab)
      (combine (map (fun ab => fst ab + snd ab) (combine a b)) c)
  = map (fun ab => fst ab + snd ab)
        (combine a (map (fun ab => fst ab + snd ab) (combine b c))).
Proof.
  revert b c. induction a as [| x a IH]; intros [| y b] [| z c];
    cbn [combine map fst snd]; trivial.
  rewrite IH. f_equal. ring.
Qed.

Lemma counts_nonneg (votes : list Z) (num : Z) :
  Forall (fun k => 0 <= k) (counts votes num).
Proof.
  unfold counts. apply Forall_forall. intros k Hk.
  apply in_map_iff in Hk. destruct Hk as [j [<- _]]. lia.
Qed.

Lemma indicator_in_range (choice nn : Z) (l : list nat) :
  1 < nn ->
  Forall (fun m => 0 <= m < nn)
         (map (fun j => if Z.of_nat j =? choice then 1 else 0) l).
Proof.
  intros Hn. apply Forall_forall. intros m Hm.
  apply in_map_iff in Hm. destruct Hm as [j [<- _]].
  destruct (Z.of_nat j =? choice); lia.
Qed.

Lemma vadd_zeros (ks : list Z) (l : list nat) :
  List.length ks = List.length l ->
  map (fun ab => fst ab + snd ab) (combine ks (map (fun _ => 0) l)) = ks.
Proof.
  revert l. induction ks as [| k ks IH]; intros [| x l] Hlen;
    cbn [combine map fst snd] in *; try discriminate; trivial.
  rewrite IH by (simpl in Hlen; lia). f_equal. lia.
Qed.

Lemma vadd_length (a b : list Z) :
  List.length (map (fun ab => fst ab + snd ab) (combine a b))
  = Nat.min (List.length a) (List.length b).
Proof. now rewrite length_map, length_combine. Qed.

Lemma vadd_nonneg (a b : list Z) :
  Forall (fun k => 0 <= k) a -> Forall (fun k => 0 <= k) b ->
  Forall (fun k => 0 <= k) (map (fun ab => fst ab + snd ab) (combine a b)).
Proof.
  intros Ha. revert b. induction Ha as [| x a Hx _ IH]; intros b Hb;
    [constructor |].
  destruct Hb as [| y b Hy Hb]; [constructor |].
  cbn [combine map fst snd]. constructor; [lia | now apply IH].
Qed.

Lemma counts_length (votes : list Z) (num : Z) :
  List.length (counts votes num) = Z.to_nat num.
Proof. unfold counts. now rewrite length_map, length_seq. Qed.

Lemma counts_in_range (votes : list Z) (num nn : Z) :
  Z.of_nat (List.length votes) < nn ->
  Forall (fun m => 0 <= m < nn) (counts votes num).
Proof.
  intros Hlen. unfold counts. apply Forall_forall. intros k Hk.
  apply in_map_iff in Hk. destruct Hk as [j [<- _]].
  pose proof (count_occ_bound Z.eq_dec (Z.of_nat j) votes). lia.
Qed.

(** One encoded ballot, encrypted. *)
Lemma ballot_encrypted (pub : PaillierPublicKey) (choice num : Z)
    (ds : list (list Z)) :
  n_sq pub = n pub * n pub -> 1 < n pub ->
  enough_for_vector (n pub) (Z.to_nat num) ds = true ->
  exists encrypted,
    encrypt_vector (map (fun j => if Z.of_nat j =? choice then 1 else 0)
                        (seq 0 (Z.to_nat num))) pub ds
    = Ok encrypted /\
    Forall2 (encrypts pub)
            (map (fun j => if Z.of_nat j =? choice then 1 else 0)
                 (seq 0 (Z.to_nat num)))
            encrypted.
Proof.
  intros Hsq Hn Hd.
  destruct (encrypt_vector_ok pub _ Hsq Hn
              (indicator_in_range choice (n pub) (seq 0 (Z.to_nat num)) Hn)
              ds) as [encrypted He].
  { now rewrite length_map, length_seq. }
  exists encrypted. split; [exact He |].
  now destruct (encrypt_vector_inv pub _ Hsq Hn _ _ He).
Qed.

(** The loop keeps in [encrypted_tally] an encryption of the counts of
    the ballots seen so far. *)
Lemma tally_loop_invariant (pub : PaillierPublicKey) (num : Z) :
  n_sq pub = n pub * n pub -> 1 < n pub ->
  forall votes ks enc draws,
  Forall2 (encrypts pub) ks enc ->
  List.length ks = Z.to_nat num ->
  Forall (fun k => 0 <= k) ks ->
  Forall (fun v => 0 <= v < num) votes ->
  enough_for_election (n pub) (Z.to_nat num) (List.length votes) draws = true ->
  exists enc',
    tally_loop (Some enc) votes num pub draws = Ok (Some enc') /\
    Forall2 (encrypts pub)
            (map (fun ab => fst ab + snd ab) (combine ks (counts votes num)))
            enc'.
Proof.
  intros Hsq Hn. induction votes as [| choice rest IH];
    intros ks enc draws HF Hlen Hks Hv Hd.
  - exists enc. split; [reflexivity |].
    change (counts [] num)
      with (map (fun _ : nat => 0) (seq 0 (Z.to_nat num))).
    rewrite vadd_zeros by (now rewrite length_seq). exact HF.
  - inversion Hv as [| ? ? Hc Hrest]; subst.
    cbn [List.length] in Hd. apply enough_for_election_cons in Hd.
    destruct Hd as [Hd1 Hd2].
    destruct (ballot_encrypted pub choice num (hd [] draws) Hsq Hn Hd1)
      as [encrypted [He HFe]].
    pose proof (in_range_nonneg _ _
                  (indicator_in_range choice (n pub) (seq 0 (Z.to_nat num)) Hn))
      as Hind.
    destruct (add_vectors_encrypts pub ltac:(nia) ks enc HF _ encrypted HFe
                Hks Hind) as [t [Ht HFt]].
    destruct (IH _ t (tl draws) HFt) as [enc' [Hloop HF']]; trivial.
    + rewrite vadd_length, length_map, length_seq. lia.
    + now apply vadd_nonneg.
    + exists enc'. cbn [tally_loop].
      rewrite encode_vote_value by assumption. cbn [bind].
      rewrite He. cbn [bind]. rewrite Ht. cbn [bind].
      split; [exact Hloop |].
      now rewrite counts_cons, <- vadd_assoc.
Qed.

(** X12. The multi-candidate tally: under a generated key, with at
    least one ballot, every choice in [0, num), fewer ballots than [n]
    and enough draws, the accumulation loop ends with an encrypted
    tally, and [decrypt_vector] turns it into the number of ballots of
    every candidate. *)
Theorem election_tally_counts (bits : Z) (d1 d2 : nat)
    (pub : PaillierPublicKey) (priv : PaillierPrivateKey)
    (votes : list Z) (num : Z) (draws : list (list (list Z))) :
  generatePaillierKey bits d1 d2 = Ok (pub, priv) ->
  votes <> [] ->
  Forall (fun v => 0 <= v < num) votes ->
  Z.of_nat (List.length votes) < n pub ->
  enough_for_election (n pub) (Z.to_nat num) (List.length votes) draws = true ->
  exists enc,
    tally_loop None votes num pub draws = Ok (Some enc) /\
    decrypt_vector enc pub priv = Ok (counts votes num).
Proof.
  intros Hgen Hne Hv Hlen Hd.
  destruct (generated_pub_shape _ _ _ _ _ Hgen) as [Hn [Hg Hsq]].
  destruct votes as [| choice rest]; [contradiction |].
  inversion Hv as [| ? ? Hc Hrest]; subst.
  cbn [List.length] in Hd. apply enough_for_election_cons in Hd.
  destruct Hd as [Hd1 Hd2].
  destruct (ballot_encrypted pub choice num (hd [] draws) Hsq Hn Hd1)
    as [encrypted [He HFe]].
  pose proof (in_range_nonneg _ _
                (indicator_in_range choice (n pub) (seq 0 (Z.to_nat num)) Hn))
    as Hind.
  destruct (tally_loop_invariant pub num Hsq Hn rest _ encrypted (tl draws)
              HFe) as [enc [Hloop HF]]; trivial.
  { now rewrite length_map, length_seq. }
  exists enc. cbn [tally_loop].
  rewrite encode_vote_value by assumption. cbn [bind].
  rewrite He. cbn [bind]. split; [exact Hloop |].
  rewrite <- counts_cons in HF.
  rewrite (decrypt_vector_encrypts bits d1 d2 pub priv _ enc Hgen
             (counts_nonneg _ _) HF).
  now rewrite map_mod_in_range by (now apply counts_in_range).
Qed.

Lemma election_tally_counts_witness :
  exists enc,
    tally_loop None [0; 1; 1] 2 sample_pub
               [[[3]; [4]]; [[5]; [6]]; [[7]; [8]]] = Ok (Some enc) /\
    decrypt_vector enc sample_pub sample_priv = Ok (counts [0; 1; 1] 2).
Proof.
  apply (election_tally_counts 512 0 0 sample_pub sample_priv
           [0; 1; 1] 2 [[[3]; [4]]; [[5]; [6]]; [[7]; [8]]]).
  - vm_compute; reflexivity.
  - discriminate.
  - repeat (apply Forall_cons; [lia |]). apply Forall_nil.
  - simpl; lia.
  - vm_compute; reflexivity.
Defined.

(* ================================================================== *)
(** ** Further properties: the private key *)
(* ================================================================== *)

(** X13. Every generated key pair is built from two distinct primes
    [p] and [q] of the pool: [n = p * q] lies between 10403 and 20711,
    [lambda_] is the least common multiple of [p - 1] and [q - 1] and is
    positive, and [mu] lies in [1, n-1] and is the inverse of [lambda_]
    modulo [n]. *)
Theorem private_key_invariant (bits : Z) (d1 d2 : nat)
    (pub : PaillierPublicKey) (priv : PaillierPrivateKey) :
  generatePaillierKey bits d1 d2 = Ok (pub, priv) ->
  exists p q,
    Z.prime p /\ Z.prime q /\ p <> q /\
    n pub = p * q /\ 10403 <= n pub <= 20711 /\
    lambda_ priv = Z.lcm (p - 1) (q - 1) /\ 0 < lambda_ priv /\
    0 < mu priv < n pub /\
    (lambda_ priv * mu priv) mod n pub = 1.
Proof.
  intros Hgen.
  destruct (keygen_result bits d1 d2) as [p [q [Hp [Hq [Hne [_ [_ E]]]]]]].
  rewrite E in Hgen. injection Hgen as <- <-.
  pose proof (small_primes_prime p Hp) as Pp.
  pose proof (small_primes_prime q Hq) as Pq.
  pose proof (small_primes_lambda_coprime p q Hp Hq Hne) as Hco.
  pose proof (N_gt_1 p q Pp Pq Hne) as HN.
  pose proof (lam_nonneg p q Pp Pq) as Hl.
  pose proof (mu_inverse p q Pp Pq Hne Hco) as Hmu.
  exists p, q. cbn [key_pub key_priv newPaillierPublicKey n lambda_ mu].
  assert (Hlcm : key_lambda p q = Z.lcm (p - 1) (q - 1)).
  { unfold Z.lcm. rewrite <- Z.gcd_div_swap. fold (key_lambda p q).
    symmetry. now apply Z.abs_eq. }
  assert (Hpos : 0 < key_lambda p q).
  { destruct (Z.eq_dec (key_lambda p q) 0) as [E0 | E0]; [| lia].
    rewrite E0, Z.gcd_0_l in Hco. lia. }
  assert (Hrange : 0 <= Z.invmod (key_lambda p q) (key_n p q) < key_n p q).
  { rewrite <- Z.mod_invmod. apply Z.mod_pos_bound. lia. }
  split; [exact Pp |]. split; [exact Pq |]. split; [exact Hne |].
  split; [reflexivity |].
  split; [now apply small_primes_product_bounds |].
  split; [exact Hlcm |]. split; [exact Hpos |].
  split; [| now rewrite Z.mul_comm].
  destruct (Z.eq_dec (Z.invmod (key_lambda p q) (key_n p q)) 0) as [E0 | E0];
    [| lia].
  rewrite E0, Z.mul_0_l, Z.mod_0_l in Hmu by lia. discriminate.
Qed.

Lemma private_key_invariant_witness :
  exists p q,
    Z.prime p /\ Z.prime q /\ p <> q /\
    n sample_pub = p * q /\ 10403 <= n sample_pub <= 20711 /\
    lambda_ sample_priv = Z.lcm (p - 1) (q - 1) /\ 0 < lambda_ sample_priv /\
    0 < mu sample_priv < n sample_pub /\
    (lambda_ sample_priv * mu sample_priv) mod n sample_pub = 1.
Proof.
  apply (private_key_invariant 512 0 0 sample_pub sample_priv).
  vm_compute; reflexivity.
Defined.

(** X14. [decrypt_vector] never raises under a key with [n > 1] and a
    non-negative private exponent: it returns a vector of the same
    length as its argument, with every entry in [0, n). *)
Theorem decrypt_vector_total (pub : PaillierPublicKey)
    (priv : PaillierPrivateKey) (enc : list Z) :
  n_sq pub = n pub * n pub -> 1 < n pub -> 0 <= lambda_ priv ->
  exists v, decrypt_vector enc pub priv = Ok v /\
            List.length v = List.length enc /\
            Forall (fun m => 0 <= m < n pub) v.
Proof.
  intros Hsq Hn Hl. unfold decrypt_vector.
  induction enc as [| c rest [v [Hv [Hlen Hall]]]].
  - exists []. repeat split; constructor.
  - destruct (decrypt_in_range pub priv c Hsq Hn Hl) as [m [Hm Hr]].
    exists (m :: v). cbn [Py.comprehension]. rewrite Hm. cbn [bind].
    rewrite Hv. cbn [bind]. split; [reflexivity |]. split.
    + simpl. now rewrite Hlen.
    + now constructor.
Qed.

Lemma decrypt_vector_total_witness :
  exists v, decrypt_vector [5; -17; 0] sample_pub sample_priv = Ok v /\
            List.length v = List.length [5; -17; 0] /\
            Forall (fun m => 0 <= m < n sample_pub) v.
Proof.
  apply (decrypt_vector_total sample_pub sample_priv [5; -17; 0]).
  - reflexivity.
  - simpl; lia.
  - simpl; lia.
Defined.
